(** * pthreadpool (MiniOS port): entry points, index arithmetic, work stealing

    A shallow embedding of [src/threadpool-pthreads.c], followed by a model
    of the work-stealing protocol over the [thread_info] slots that the
    file declares.

    - [size_t] is an unsigned machine integer of 32 or 64 bits; it is
      embedded as [Z] and every arithmetic operation of the source that can
      leave the range is wrapped explicitly ([wrap]).
    - A callback [function(argument, i, ...)] acts on the caller's world; it
      is embedded as a state transformer on an arbitrary state type.  The
      recording callbacks ([record_1d], ...) instantiate the state with the
      list of calls observed so far.
    - A [for] loop is embedded by [for_loop], which takes a bound on the
      number of condition evaluations; [None] means that the bound was
      reached before the loop exited.
    - A pool handle that may be [NULL] is an [option pthreadpool].
    - The workers of a dispatch are embedded as a step function on the
      shared slots, driven by a schedule: the list of the atomic actions
      in the order in which they happen ([WorkStealing]). *)

From stdpp Require Import base list numbers list_numbers.

Local Open Scope Z_scope.

(** ** Machine integers *)

(** [__SIZEOF_SIZE_T__]: the two platforms accepted by [multiply_divide]. *)
Inductive size_t_width : Type :=
  | SIZEOF_SIZE_T_4
  | SIZEOF_SIZE_T_8.

Definition size_bits (W : size_t_width) : Z :=
  match W with
  | SIZEOF_SIZE_T_4 => 32
  | SIZEOF_SIZE_T_8 => 64
  end.

Definition SIZE_MODULUS (W : size_t_width) : Z := 2 ^ size_bits W.

Definition SIZE_MAX (W : size_t_width) : Z := SIZE_MODULUS W - 1.

(** Reduction of an arithmetic result to [size_t]. *)
Definition wrap (W : size_t_width) (z : Z) : Z := z mod SIZE_MODULUS W.

(** A value that fits [size_t]. *)
Definition is_size_t (W : size_t_width) (z : Z) : Prop := 0 <= z <= SIZE_MAX W.

(** ** Loops *)

Section Loops.
Context {St : Type}.

(** [for (i = init; cond(i); i = incr(i)) body(i)], started at [i] in
    state [s].  [fuel] bounds the number of times the condition is
    evaluated. *)
Fixpoint for_loop (fuel : nat) (cond : Z -> bool) (incr : Z -> Z)
    (body : Z -> St -> option St) (i : Z) (s : St) : option St :=
  match fuel with
  | O => None
  | S fuel' =>
      if cond i then
        match body i s with
        | Some s' => for_loop fuel' cond incr body (incr i) s'
        | None => None
        end
      else Some s
  end.
End Loops.

(** ** Helpers of the source *)

Section Source.
Variable W : size_t_width.

(** [divide_round_up]: division of [size_t] values; the divisor is not
    checked by the source (division by zero is undefined in C). *)
Definition divide_round_up (dividend divisor : Z) : Z :=
  if dividend mod divisor =? 0 then dividend / divisor
  else wrap W (dividend / divisor + 1).

Definition min (a b : Z) : Z := if a <? b then a else b.

(** [multiply_divide]: the operands are widened to twice the width of
    [size_t] ([uint64_t] or [__uint128_t]) and multiplied there.  In
    [(size_t) (wide product) / ((wide) d)] the cast applies to the product
    alone (a cast binds tighter than [/]): the product is reduced to
    [size_t] before the division.  The division is then done in the wide
    type, and the quotient is converted to the return type [size_t]. *)
Definition multiply_divide (a b d : Z) : Z :=
  let wide z := z mod 2 ^ (2 * size_bits W) in
  wrap W (wide (wrap W (wide (wide a * wide b)) / wide d)).

(** ** Data model *)

Inductive threadpool_command : Type :=
  | threadpool_command_init
  | threadpool_command_compute_1d
  | threadpool_command_shutdown.

Record thread_info : Type := {
  range_start : Z;
  range_end : Z;
  range_length : Z;
  thread_number : Z
}.

(** [function] and [argument] are untyped pointers in the source; they
    are kept as addresses. *)
Record pthreadpool : Type := {
  active_threads : Z;
  has_active_threads : Z;
  command : Z;
  function : Z;
  argument : Z;
  threads_count : Z;
  threads : list thread_info
}.

(** ** Division by a precomputed divisor *)

(** Modelled from the spec: [fxdiv.h] (the FXdiv dependency, not part of
    [src/]) declares [fxdiv_divisor_size_t], [fxdiv_result_size_t] and
    [fxdiv_divide_size_t].  The spec says of the adapters that use them
    that they map a linear index to a coordinate via integer division;
    the divisor record keeps only the divisor itself, and the division
    returns the quotient and the remainder. *)
Record fxdiv_divisor_size_t : Type := { value : Z }.

Record fxdiv_result_size_t : Type := { quotient : Z; remainder : Z }.

Definition fxdiv_divide_size_t (n : Z) (divisor : fxdiv_divisor_size_t)
    : fxdiv_result_size_t :=
  {| quotient := n / value divisor; remainder := n mod value divisor |}.

(** ** Entry points *)

Definition pthreadpool_get_threads_count (threadpool : option pthreadpool) : Z :=
  match threadpool with
  | None => 1
  | Some tp => threads_count tp
  end.

Section Callbacks.
(** [A] is the type of the opaque [void* argument]; [St] is the state
    the callback acts on. *)
Context {A St : Type}.

Definition pthreadpool_function_1d_t : Type := A -> Z -> St -> St.
Definition pthreadpool_function_1d_tiled_t : Type := A -> Z -> Z -> St -> St.
Definition pthreadpool_function_2d_t : Type := A -> Z -> Z -> St -> St.
Definition pthreadpool_function_2d_tiled_t : Type :=
  A -> Z -> Z -> Z -> Z -> St -> St.

Definition pthreadpool_compute_1d (fuel : nat)
    (threadpool : option pthreadpool)
    (function : pthreadpool_function_1d_t) (argument : A)
    (range : Z) (s : St) : option St :=
  match threadpool with
  | None =>
      for_loop fuel (fun i => i <? range) (fun i => wrap W (i + 1))
        (fun i s => Some (function argument i s)) 0 s
  | Some _ => Some s
  end.

Record compute_1d_tiled_context : Type := {
  tiled_1d_function : pthreadpool_function_1d_tiled_t;
  tiled_1d_argument : A;
  tiled_1d_range : Z;
  tiled_1d_tile : Z
}.

Definition compute_1d_tiled (context : compute_1d_tiled_context)
    (linear_index : Z) (s : St) : St :=
  let tile_index := linear_index in
  let index := wrap W (tile_index * tiled_1d_tile context) in
  let tile :=
    min (tiled_1d_tile context) (wrap W (tiled_1d_range context - index)) in
  tiled_1d_function context (tiled_1d_argument context) index tile s.

Definition pthreadpool_compute_1d_tiled (fuel : nat)
    (threadpool : option pthreadpool)
    (function : pthreadpool_function_1d_tiled_t) (argument : A)
    (range tile : Z) (s : St) : option St :=
  match threadpool with
  | None =>
      for_loop fuel (fun i => i <? range) (fun i => wrap W (i + tile))
        (fun i s => Some (function argument i (min (wrap W (range - i)) tile) s))
        0 s
  | Some _ => Some s
  end.

Record compute_2d_context : Type := {
  plain_2d_function : pthreadpool_function_2d_t;
  plain_2d_argument : A;
  plain_2d_range_j : fxdiv_divisor_size_t
}.

Definition compute_2d (context : compute_2d_context)
    (linear_index : Z) (s : St) : St :=
  let range_j := plain_2d_range_j context in
  let index := fxdiv_divide_size_t linear_index range_j in
  plain_2d_function context (plain_2d_argument context)
    (quotient index) (remainder index) s.

Definition pthreadpool_compute_2d (fuel : nat)
    (threadpool : option pthreadpool)
    (function : pthreadpool_function_2d_t) (argument : A)
    (range_i range_j : Z) (s : St) : option St :=
  match threadpool with
  | None =>
      for_loop fuel (fun i => i <? range_i) (fun i => wrap W (i + 1))
        (fun i s =>
           for_loop fuel (fun j => j <? range_j) (fun j => wrap W (j + 1))
             (fun j s => Some (function argument i j s)) 0 s)
        0 s
  | Some _ => Some s
  end.

Record compute_2d_tiled_context : Type := {
  tiled_2d_function : pthreadpool_function_2d_tiled_t;
  tiled_2d_argument : A;
  tiled_2d_tile_range_j : fxdiv_divisor_size_t;
  tiled_2d_range_i : Z;
  tiled_2d_range_j : Z;
  tiled_2d_tile_i : Z;
  tiled_2d_tile_j : Z
}.

Definition compute_2d_tiled (context : compute_2d_tiled_context)
    (linear_index : Z) (s : St) : St :=
  let tile_range_j := tiled_2d_tile_range_j context in
  let tile_index := fxdiv_divide_size_t linear_index tile_range_j in
  let max_tile_i := tiled_2d_tile_i context in
  let max_tile_j := tiled_2d_tile_j context in
  let index_i := wrap W (quotient tile_index * max_tile_i) in
  let index_j := wrap W (remainder tile_index * max_tile_j) in
  let tile_i := min max_tile_i (wrap W (tiled_2d_range_i context - index_i)) in
  let tile_j := min max_tile_j (wrap W (tiled_2d_range_j context - index_j)) in
  tiled_2d_function context (tiled_2d_argument context)
    index_i index_j tile_i tile_j s.

Definition pthreadpool_compute_2d_tiled (fuel : nat)
    (threadpool : option pthreadpool)
    (function : pthreadpool_function_2d_tiled_t) (argument : A)
    (range_i range_j tile_i tile_j : Z) (s : St) : option St :=
  match threadpool with
  | None =>
      for_loop fuel (fun i => i <? range_i) (fun i => wrap W (i + tile_i))
        (fun i s =>
           for_loop fuel (fun j => j <? range_j) (fun j => wrap W (j + tile_j))
             (fun j s =>
                Some (function argument i j
                        (min (wrap W (range_i - i)) tile_i)
                        (min (wrap W (range_j - j)) tile_j) s))
             0 s)
        0 s
  | Some _ => Some s
  end.
End Callbacks.
End Source.

Arguments compute_1d_tiled_context : clear implicits.
Arguments compute_2d_context : clear implicits.
Arguments compute_2d_tiled_context : clear implicits.

Arguments pthreadpool_function_1d_t : clear implicits.
Arguments pthreadpool_function_1d_tiled_t : clear implicits.
Arguments pthreadpool_function_2d_t : clear implicits.
Arguments pthreadpool_function_2d_tiled_t : clear implicits.

(** A pool of two workers, as a present pool handle. *)
Definition example_pool : pthreadpool :=
  {| active_threads := 0; has_active_threads := 0; command := 0;
     function := 0; argument := 0; threads_count := 2;
     threads :=
       [ {| range_start := 0; range_end := 0; range_length := 0; thread_number := 0 |};
         {| range_start := 0; range_end := 0; range_length := 0; thread_number := 1 |} ] |}.

(** ** Recording callbacks: the state is the list of calls made so far. *)

Definition record_1d : pthreadpool_function_1d_t unit (list Z) :=
  fun _ i calls => calls ++ [i].

Definition calls_1d (W : size_t_width) (fuel : nat)
    (threadpool : option pthreadpool) (range : Z) : option (list Z) :=
  pthreadpool_compute_1d W fuel threadpool record_1d tt range [].

Definition record_1d_tiled : pthreadpool_function_1d_tiled_t unit (list (Z * Z)) :=
  fun _ i tile calls => calls ++ [(i, tile)].

Definition record_2d : pthreadpool_function_2d_t unit (list (Z * Z)) :=
  fun _ i j calls => calls ++ [(i, j)].

Definition record_2d_tiled
    : pthreadpool_function_2d_tiled_t unit (list (Z * Z * Z * Z)) :=
  fun _ i j tile_i tile_j calls => calls ++ [(i, j, tile_i, tile_j)].

Definition calls_1d_tiled (W : size_t_width) (fuel : nat)
    (threadpool : option pthreadpool) (range tile : Z) : option (list (Z * Z)) :=
  pthreadpool_compute_1d_tiled W fuel threadpool record_1d_tiled tt range tile [].

Definition calls_2d (W : size_t_width) (fuel : nat)
    (threadpool : option pthreadpool) (range_i range_j : Z)
    : option (list (Z * Z)) :=
  pthreadpool_compute_2d W fuel threadpool record_2d tt range_i range_j [].

Definition calls_2d_tiled (W : size_t_width) (fuel : nat)
    (threadpool : option pthreadpool) (range_i range_j tile_i tile_j : Z)
    : option (list (Z * Z * Z * Z)) :=
  pthreadpool_compute_2d_tiled W fuel threadpool record_2d_tiled tt
    range_i range_j tile_i tile_j [].

(** The offsets [i], [i + step], ..., [i + (n - 1) * step]. *)
Fixpoint strides (i step : Z) (n : nat) : list Z :=
  match n with
  | O => []
  | S n' => i :: strides (i + step) step n'
  end.

(** The pairs [(i, j)] of a [range_i] by [range_j] grid in row-major order. *)
Definition row_major (range_i range_j : Z) : list (Z * Z) :=
  i ← seqZ 0 range_i; (pair i <$> seqZ 0 range_j).

(** The items of a chunk [(offset, width)] passed to a 1-D tiled callback. *)
Definition chunk_items (chunk : Z * Z) : list Z := seqZ chunk.1 chunk.2.

(** The cells of a tile [(i, j, tile_i, tile_j)] passed to a 2-D tiled
    callback, in row-major order. *)
Definition tile_cells (tile : Z * Z * Z * Z) : list (Z * Z) :=
  let '(i, j, tile_i, tile_j) := tile in
  i' ← seqZ i tile_i; (pair i' <$> seqZ j tile_j).

(** A chunk that lies within [0, range) and is as wide as the tile allows. *)
Definition chunk_in_range (range tile : Z) (chunk : Z * Z) : Prop :=
  0 <= chunk.1 < range
  /\ chunk.2 = Z.min tile (range - chunk.1)
  /\ chunk.1 + chunk.2 <= range.

Definition tile_in_range (range_i range_j tile_i tile_j : Z)
    (tile : Z * Z * Z * Z) : Prop :=
  let '(i, j, width_i, width_j) := tile in
  chunk_in_range range_i tile_i (i, width_i)
  /\ chunk_in_range range_j tile_j (j, width_j).

(** ** Work stealing over the worker slots *)

Module WorkStealing.

(** Which end of a slot's range a claimed item is taken from: the owner
    takes [range_start], a thief takes the item below [range_end]. *)
Inductive take_side : Type :=
  | TakeStart
  | TakeEnd.

(** Modelled from the spec: the worker loop is not part of [src/] (only
    the declaration of [thread_info] and the comments of its fields are).
    A worker that runs a job is looking for an item ([Running]), or has
    decremented the [range_length] of a slot and not yet taken the index
    ([Claimed]), or has gone back to idle after decrementing the count of
    active workers ([Idle]). *)
Inductive worker_state : Type :=
  | Running
  | Claimed (slot : nat) (side : take_side)
  | Idle.

(** The shared state of one dispatch: the slots, the control state of
    every worker, the count of active workers, and the callback
    invocations made so far as pairs (worker, index). *)
Record state : Type := {
  slots : list thread_info;
  workers : list worker_state;
  active_workers : Z;
  executed : list (nat * Z)
}.

Definition with_start (sl : thread_info) (z : Z) : thread_info :=
  {| range_start := z; range_end := range_end sl;
     range_length := range_length sl; thread_number := thread_number sl |}.

Definition with_end (sl : thread_info) (z : Z) : thread_info :=
  {| range_start := range_start sl; range_end := z;
     range_length := range_length sl; thread_number := thread_number sl |}.

Definition with_length (sl : thread_info) (z : Z) : thread_info :=
  {| range_start := range_start sl; range_end := range_end sl;
     range_length := z; thread_number := thread_number sl |}.

(** One atomic action of one worker, as picked by the scheduler. *)
Inductive event : Type :=
  | ClaimOwn (w : nat)
  | Steal (w victim : nat)
  | Take (w : nat)
  | Finish (w : nat).

(** Modelled from the spec: the atomic claim, "decrement [range_length]
    (if it was > 0)", by worker [w] on the slot [target]. *)
Definition try_claim (w target : nat) (side : take_side) (st : state)
    : option state :=
  match workers st !! w, slots st !! target with
  | Some Running, Some sl =>
      if 0 <? range_length sl then
        Some {| slots := <[target := with_length sl (range_length sl - 1)]> (slots st);
                workers := <[w := Claimed target side]> (workers st);
                active_workers := active_workers st;
                executed := executed st |}
      else None
  | _, _ => None
  end.

Definition own_exhausted (w : nat) (st : state) : bool :=
  match slots st !! w with
  | Some sl => range_length sl =? 0
  | None => false
  end.

Definition all_exhausted (st : state) : bool :=
  forallb (fun sl => range_length sl =? 0) (slots st).

(** Modelled from the spec: after a successful claim the owner takes
    [range_start] as the index and increments it; a thief decrements
    [range_end] and takes the highest remaining index; the callback is
    then invoked on the index.  The invocation is recorded with the take:
    the worker does nothing else in between. *)
Definition take (w target : nat) (side : take_side) (st : state)
    : option state :=
  match slots st !! target with
  | Some sl =>
      let '(index, sl') :=
        match side with
        | TakeStart => (range_start sl, with_start sl (range_start sl + 1))
        | TakeEnd => (range_end sl - 1, with_end sl (range_end sl - 1))
        end in
      Some {| slots := <[target := sl']> (slots st);
              workers := <[w := Running]> (workers st);
              active_workers := active_workers st;
              executed := executed st ++ [(w, index)] |}
  | None => None
  end.

(** Modelled from the spec: the worker loop of section 4.3, one atomic
    action at a time.  [None] means that the action is not enabled.  A
    worker claims from its own slot; once its own slot is exhausted it
    claims from another slot (the order in which it scans the victims is
    left to the scheduler); it goes idle when every slot is exhausted.
    The lengths never grow, so a scan that has read 0 in every slot is
    the same as reading all of them at once. *)
Definition step (e : event) (st : state) : option state :=
  match e with
  | ClaimOwn w => try_claim w w TakeStart st
  | Steal w victim =>
      if own_exhausted w st && negb (w =? victim)%nat
      then try_claim w victim TakeEnd st
      else None
  | Take w =>
      match workers st !! w with
      | Some (Claimed target side) => take w target side st
      | _ => None
      end
  | Finish w =>
      match workers st !! w with
      | Some Running =>
          if all_exhausted st then
            Some {| slots := slots st;
                    workers := <[w := Idle]> (workers st);
                    active_workers := active_workers st - 1;
                    executed := executed st |}
          else None
      | _ => None
      end
  end.

(** A schedule is a sequence of actions; it runs if every action is
    enabled when its turn comes. *)
Fixpoint run (sched : list event) (st : state) : option state :=
  match sched with
  | [] => Some st
  | e :: sched' =>
      match step e st with
      | Some st' => run sched' st'
      | None => None
      end
  end.

(** Modelled from the spec: the partition of [dispatch] (section 4.2,
    step 2): each of [T] workers gets [N / T] items and the first
    [N mod T] workers get one more, in order. *)
Definition partition_start (N T t : Z) : Z := t * (N / T) + Z.min t (N mod T).

Definition partition_slot (N T t : Z) : thread_info :=
  let start := partition_start N T t in
  let len := N / T + (if t <? N mod T then 1 else 0) in
  {| range_start := start; range_end := start + len;
     range_length := len; thread_number := t |}.

(** Modelled from the spec: the state published by [dispatch] (section
    4.2, steps 3 to 5), once every worker has seen the command. *)
Definition dispatch (N T : Z) : state :=
  {| slots := partition_slot N T <$> seqZ 0 T;
     workers := replicate (Z.to_nat T) Running;
     active_workers := T;
     executed := [] |}.

(** The items of a slot that nobody has taken yet. *)
Definition slot_items (sl : thread_info) : list Z :=
  seqZ (range_start sl) (range_end sl - range_start sl).

Definition claims (target : nat) (ws : worker_state) : bool :=
  match ws with
  | Claimed slot _ => (slot =? target)%nat
  | _ => false
  end.

(** The number of workers that have claimed an item of [target] and not
    yet taken it. *)
Fixpoint pending (target : nat) (wss : list worker_state) : Z :=
  match wss with
  | [] => 0
  | ws :: wss' => (if claims target ws then 1 else 0) + pending target wss'
  end.

Definition is_idle (ws : worker_state) : bool :=
  match ws with
  | Idle => true
  | _ => false
  end.

Fixpoint count_active (wss : list worker_state) : Z :=
  match wss with
  | [] => 0
  | ws :: wss' => (if is_idle ws then 0 else 1) + count_active wss'
  end.

(** The work left: two actions for every unclaimed item (claim it, take
    it), and for every worker the actions it still owes (take the item
    it has claimed, go idle). *)
Definition worker_weight (ws : worker_state) : Z :=
  match ws with
  | Running => 1
  | Claimed _ _ => 2
  | Idle => 0
  end.

Fixpoint total_weight (wss : list worker_state) : Z :=
  match wss with
  | [] => 0
  | ws :: wss' => worker_weight ws + total_weight wss'
  end.

Fixpoint total_length (sls : list thread_info) : Z :=
  match sls with
  | [] => 0
  | sl :: sls' => range_length sl + total_length sls'
  end.

Definition work_left (st : state) : Z :=
  2 * total_length (slots st) + total_weight (workers st).

(** A schedule of two workers over three items, in which worker 1 runs
    its own item and then steals one from worker 0. *)
Definition example_schedule : list event :=
  [ ClaimOwn 1%nat; Take 1%nat; Steal 1%nat 0%nat; ClaimOwn 0%nat;
    Take 0%nat; Take 1%nat; Finish 0%nat; Finish 1%nat ].

(** What holds of every state that a schedule reaches from
    [dispatch N T]:
    - every slot still owns [range_length] unclaimed items plus one item
      per pending claim (hence [range_length <= range_end - range_start],
      as the comment of the field says);
    - the indices executed so far and the items left in the slots make
      up [0, N);
    - once a worker has gone idle every slot is exhausted;
    - [active_workers] counts the workers that are not idle;
    - a claim is on a slot of the pool. *)
Record invariant (N : Z) (st : state) : Prop := {
  inv_workers : length (workers st) = length (slots st);
  inv_slot : forall v sl, slots st !! v = Some sl ->
    0 <= range_length sl /\
    range_start sl + range_length sl + pending v (workers st) = range_end sl;
  inv_items :
    (snd <$> executed st) ++ concat (slot_items <$> slots st) ≡ₚ seqZ 0 N;
  inv_idle :
    count_active (workers st) < Z.of_nat (length (workers st)) ->
    Forall (fun sl => range_length sl = 0) (slots st);
  inv_active : active_workers st = count_active (workers st);
  inv_claimed : forall w target side,
    workers st !! w = Some (Claimed target side) ->
    is_Some (slots st !! target)
}.

End WorkStealing.

(* ===================================================================== *)
(** * Properties *)

(** ** Machine integers *)

Lemma SIZE_MODULUS_pos W : 0 < SIZE_MODULUS W.
Proof. by destruct W. Qed.

Lemma SIZE_MAX_nonneg W : 0 <= SIZE_MAX W.
Proof. pose proof (SIZE_MODULUS_pos W). unfold SIZE_MAX. lia. Qed.

Lemma wrap_small W z : 0 <= z <= SIZE_MAX W -> wrap W z = z.
Proof. unfold wrap, SIZE_MAX. intros Hz. apply Z.mod_small. lia. Qed.

Lemma min_spec a b : min a b = Z.min a b.
Proof. unfold min. destruct (Z.ltb_spec a b); lia. Qed.

(** ** Lists of offsets *)

Lemma strides_fmap i step n :
  strides i step n = (fun k => i + k * step) <$> seqZ 0 (Z.of_nat n).
Proof.
  revert i. induction n as [|n IH]; intros i; [done|].
  rewrite seqZ_cons by lia. cbn [strides fmap list_fmap].
  f_equal; [lia|].
  rewrite IH, <- (fmap_add_seqZ 1 0), <- list_fmap_compose.
  replace (Z.pred (Z.of_nat (S n))) with (Z.of_nat n) by lia.
  apply list_fmap_ext. intros _ k _. simpl. lia.
Qed.

Lemma strides_unit n : strides 0 1 n = seqZ 0 (Z.of_nat n).
Proof.
  rewrite strides_fmap. rewrite <- (list_fmap_id (seqZ 0 (Z.of_nat n))) at 2.
  apply list_fmap_ext. intros _ k _. simpl. lia.
Qed.

(** ** Loops *)

Section LoopFacts.
Context {St : Type}.
Variable W : size_t_width.

(** A loop [for (i = i0; i < range; i += step)] whose index does not leave
    [size_t] before it reaches [range] runs its body at
    [i0], [i0 + step], ... and exits. *)
Lemma for_loop_strided (range step : Z) (body : Z -> St -> option St)
    (g : Z -> St -> St) (n : nat) :
  forall (i : Z) (s : St) (fuel : nat),
    0 <= i ->
    0 <= step ->
    (forall k, 0 <= k < Z.of_nat n -> i + k * step < range) ->
    range <= i + Z.of_nat n * step <= SIZE_MAX W ->
    (forall k s', 0 <= k < Z.of_nat n ->
       body (i + k * step) s' = Some (g (i + k * step) s')) ->
    (n < fuel)%nat ->
    for_loop fuel (fun i => i <? range) (fun i => wrap W (i + step)) body i s
    = Some (foldl (fun s' j => g j s') s (strides i step n)).
Proof.
  induction n as [|n IH]; intros i s fuel Hi Hstep Hin Hout Hbody Hfuel.
  - destruct fuel as [|fuel]; [lia|]. simpl.
    destruct (Z.ltb_spec i range); [lia|done].
  - destruct fuel as [|fuel]; [lia|]. simpl.
    specialize (Hin 0) as Hin0. specialize (Hbody 0 s) as Hbody0.
    rewrite Z.mul_0_l, Z.add_0_r in Hin0, Hbody0.
    destruct (Z.ltb_spec i range); [|lia].
    rewrite Hbody0 by lia.
    rewrite Nat2Z.inj_succ in Hout, Hin, Hbody.
    rewrite wrap_small by nia.
    apply IH; [lia | lia | | nia | | lia].
    + intros k Hk. specialize (Hin (k + 1)). nia.
    + intros k s' Hk. specialize (Hbody (k + 1) s').
      replace (i + step + k * step) with (i + (k + 1) * step) by lia.
      apply Hbody. lia.
Qed.

(** A loop whose index returns to its initial value while the state of
    the bound does not matter never exits: with any bound on the number
    of tests the result is [None]. *)
Lemma for_loop_stuck (cond : Z -> bool) (incr : Z -> Z)
    (body : Z -> St -> option St) (i : Z) :
  cond i = true -> incr i = i ->
  forall fuel s, for_loop fuel cond incr body i s = None.
Proof.
  intros Hc Hi fuel. induction fuel as [|fuel IH]; intros s; [done|].
  simpl. rewrite Hc, Hi. destruct (body i s); auto.
Qed.

(** A loop whose body does not return at the current index does not
    return either. *)
Lemma for_loop_body_diverges (cond : Z -> bool) (incr : Z -> Z)
    (body : Z -> St -> option St) (i : Z) (s : St) (fuel : nat) :
  cond i = true -> body i s = None ->
  for_loop fuel cond incr body i s = None.
Proof. intros Hc Hb. destruct fuel; [done|]. simpl. by rewrite Hc, Hb. Qed.

(** More generally, a loop whose index stays in a set on which the
    condition holds never exits. *)
Lemma for_loop_trapped (P : Z -> Prop) (cond : Z -> bool) (incr : Z -> Z)
    (body : Z -> St -> option St) :
  (forall i, P i -> cond i = true /\ P (incr i)) ->
  forall fuel i s, P i -> for_loop fuel cond incr body i s = None.
Proof.
  intros Htrap fuel. induction fuel as [|fuel IH]; intros i s Hi; [done|].
  simpl. destruct (Htrap i Hi) as [-> Hnext].
  destruct (body i s); auto.
Qed.
End LoopFacts.

Lemma foldl_bind {A B C : Type} (f : A -> C -> A) (h : B -> list C)
    (l : list B) (a : A) :
  foldl f a (l ≫= h) = foldl (fun a' x => foldl f a' (h x)) a l.
Proof.
  revert a. induction l as [|x l IH]; intros a; [done|].
  rewrite bind_cons, foldl_app. apply IH.
Qed.

Lemma foldl_ext_in {A B : Type} (f g : A -> B -> A) (l : list B) (a : A) :
  (forall a' x, x ∈ l -> f a' x = g a' x) -> foldl f a l = foldl g a l.
Proof.
  revert a. induction l as [|x l IH]; intros a Hfg; [done|].
  simpl. rewrite Hfg by left. apply IH. intros a' y Hy. apply Hfg. by right.
Qed.

Lemma foldl_record {B : Type} (l : list B) (calls : list B) :
  foldl (fun calls' x => calls' ++ [x]) calls l = calls ++ l.
Proof.
  revert calls. induction l as [|x l IH]; intros calls; simpl.
  - by rewrite app_nil_r.
  - rewrite IH, <- app_assoc. done.
Qed.

(** ** The plain fallbacks (absent pool) *)

Section Fallbacks.
Context {A St : Type}.
Variable W : size_t_width.

Lemma compute_1d_fallback (function : pthreadpool_function_1d_t A St)
    (argument : A) (range : Z) (s : St) (fuel : nat) :
  is_size_t W range ->
  (Z.to_nat range < fuel)%nat ->
  pthreadpool_compute_1d W fuel None function argument range s
  = Some (foldl (fun s' i => function argument i s') s (seqZ 0 range)).
Proof.
  intros [Hlo Hhi] Hfuel. unfold pthreadpool_compute_1d.
  rewrite (for_loop_strided W range 1 _ (fun i s' => function argument i s')
             (Z.to_nat range)); try done; try lia.
  - by rewrite strides_unit, Z2Nat.id.
Qed.

Lemma compute_2d_fallback (function : pthreadpool_function_2d_t A St)
    (argument : A) (range_i range_j : Z) (s : St) (fuel : nat) :
  is_size_t W range_i ->
  is_size_t W range_j ->
  (Z.to_nat range_i < fuel)%nat ->
  (Z.to_nat range_j < fuel)%nat ->
  pthreadpool_compute_2d W fuel None function argument range_i range_j s
  = Some (foldl (fun s' ij => function argument ij.1 ij.2 s') s
            (row_major range_i range_j)).
Proof.
  intros [Hilo Hihi] [Hjlo Hjhi] Hfi Hfj. unfold pthreadpool_compute_2d.
  rewrite (for_loop_strided W range_i 1 _
             (fun i s' => foldl (fun s'' j => function argument i j s'') s'
                            (seqZ 0 range_j))
             (Z.to_nat range_i)); try done; try lia.
  - rewrite strides_unit, Z2Nat.id by done. f_equal.
    unfold row_major. rewrite foldl_bind.
    apply foldl_ext_in. intros s' i _. by rewrite foldl_fmap.
  - intros k s' Hk.
    rewrite (for_loop_strided W range_j 1 _
               (fun j s'' => function argument (0 + k * 1) j s'')
               (Z.to_nat range_j)); try done; try lia.
    by rewrite strides_unit, Z2Nat.id.
Qed.
End Fallbacks.

(** ** Linear indices and grid coordinates *)

Lemma row_major_succ (n : nat) (range_j : Z) :
  row_major (Z.of_nat (S n)) range_j
  = row_major (Z.of_nat n) range_j ++ (pair (Z.of_nat n) <$> seqZ 0 range_j).
Proof.
  unfold row_major. rewrite seqZ_S, bind_app. f_equal.
  simpl. by rewrite app_nil_r.
Qed.

Lemma row_major_linear (range_i range_j : Z) :
  0 <= range_i -> 1 <= range_j ->
  (fun l => (l / range_j, l mod range_j)) <$> seqZ 0 (range_i * range_j)
  = row_major range_i range_j.
Proof.
  intros Hi Hj. rewrite <- (Z2Nat.id range_i) by done.
  induction (Z.to_nat range_i) as [|n IH]; [done|].
  rewrite row_major_succ, <- IH.
  replace (Z.of_nat (S n) * range_j) with (Z.of_nat n * range_j + range_j) by lia.
  rewrite seqZ_app, fmap_app by nia. f_equal.
  rewrite (Z.add_comm 0), <- (fmap_add_seqZ (Z.of_nat n * range_j) 0).
  rewrite <- list_fmap_compose.
  apply list_fmap_ext. intros idx j Hj'.
  apply list_elem_of_lookup_2, elem_of_seqZ in Hj'. simpl.
  rewrite Z.add_comm, Z.div_add, Z.mod_add by lia.
  rewrite Z.div_small, Z.mod_small by lia. done.
Qed.

(** ** Rounded-up division *)

(** The increment of the quotient in [divide_round_up] stays within the
    dividend, hence within [size_t]. *)
Lemma quotient_succ_le (dividend divisor : Z) :
  0 <= dividend -> 1 <= divisor -> dividend mod divisor <> 0 ->
  0 <= dividend / divisor /\ dividend / divisor + 1 <= dividend.
Proof.
  intros Hd Hs Hnz.
  pose proof (Z.div_mod dividend divisor ltac:(lia)) as Hdm.
  pose proof (Z.mod_pos_bound dividend divisor ltac:(lia)) as Hm.
  assert (0 <= dividend / divisor) as Hq by (apply Z.div_pos; lia).
  nia.
Qed.

Lemma divide_round_up_bounds W (dividend divisor : Z) :
  is_size_t W dividend ->
  1 <= divisor <= SIZE_MAX W ->
  divisor * (divide_round_up W dividend divisor - 1) < dividend
  /\ dividend <= divisor * divide_round_up W dividend divisor
  /\ 0 <= divide_round_up W dividend divisor <= dividend.
Proof.
  intros [Hlo Hhi] [Hs Hs']. unfold divide_round_up.
  pose proof (Z.div_mod dividend divisor ltac:(lia)) as Hdm.
  pose proof (Z.mod_pos_bound dividend divisor ltac:(lia)) as Hm.
  assert (0 <= dividend / divisor) as Hq by (apply Z.div_pos; lia).
  destruct (Z.eqb_spec (dividend mod divisor) 0) as [Hz|Hnz].
  - nia.
  - assert (dividend / divisor + 1 <= dividend) as Hle by nia.
    rewrite wrap_small by lia. nia.
Qed.

(** ** The tiled fallbacks (absent pool) *)

Section TiledFallbacks.
Context {A St : Type}.
Variable W : size_t_width.

(** The clipped width computed in the loops of the tiled fallbacks. *)
Lemma clipped_width (range tile index : Z) :
  0 <= index -> index < range -> range <= SIZE_MAX W ->
  min (wrap W (range - index)) tile = Z.min tile (range - index).
Proof. intros. rewrite wrap_small, min_spec by lia. lia. Qed.

(** Offsets visited by a tiled loop whose index does not wrap around. *)
Lemma tile_offsets_in_range (range tile k : Z) :
  is_size_t W range -> 1 <= tile <= SIZE_MAX W ->
  0 <= k < divide_round_up W range tile ->
  0 <= k * tile /\ k * tile < range.
Proof.
  intros Hr Ht Hk.
  destruct (divide_round_up_bounds W range tile Hr Ht) as (Hlt & _ & _). nia.
Qed.

Lemma compute_1d_tiled_fallback (function : pthreadpool_function_1d_tiled_t A St)
    (argument : A) (range tile : Z) (s : St) (fuel : nat) :
  is_size_t W range ->
  1 <= tile <= SIZE_MAX W ->
  divide_round_up W range tile * tile <= SIZE_MAX W ->
  (Z.to_nat (divide_round_up W range tile) < fuel)%nat ->
  pthreadpool_compute_1d_tiled W fuel None function argument range tile s
  = Some (foldl (fun s' k =>
                   function argument (k * tile) (Z.min tile (range - k * tile)) s')
            s (seqZ 0 (divide_round_up W range tile))).
Proof.
  intros Hr Ht Hfit Hfuel. unfold pthreadpool_compute_1d_tiled.
  destruct (divide_round_up_bounds W range tile Hr Ht) as (Hlt & Hge & Hn & _).
  rewrite (for_loop_strided W range tile _
             (fun i s' => function argument i (min (wrap W (range - i)) tile) s')
             (Z.to_nat (divide_round_up W range tile))); try done; try lia.
  - rewrite strides_fmap, foldl_fmap, Z2Nat.id by done. f_equal.
    apply foldl_ext_in. intros s' k Hk. apply elem_of_seqZ in Hk.
    destruct (tile_offsets_in_range range tile k Hr Ht ltac:(lia)).
    destruct Hr. rewrite Z.add_0_l, clipped_width by lia. done.
  - intros k Hk. rewrite Z2Nat.id in Hk by done.
    destruct (tile_offsets_in_range range tile k Hr Ht ltac:(lia)). lia.
Qed.

Lemma compute_2d_tiled_fallback (function : pthreadpool_function_2d_tiled_t A St)
    (argument : A) (range_i range_j tile_i tile_j : Z) (s : St) (fuel : nat) :
  is_size_t W range_i -> is_size_t W range_j ->
  1 <= tile_i <= SIZE_MAX W -> 1 <= tile_j <= SIZE_MAX W ->
  divide_round_up W range_i tile_i * tile_i <= SIZE_MAX W ->
  divide_round_up W range_j tile_j * tile_j <= SIZE_MAX W ->
  (Z.to_nat (divide_round_up W range_i tile_i) < fuel)%nat ->
  (Z.to_nat (divide_round_up W range_j tile_j) < fuel)%nat ->
  pthreadpool_compute_2d_tiled W fuel None function argument
    range_i range_j tile_i tile_j s
  = Some (foldl (fun s' kl =>
                   function argument (kl.1 * tile_i) (kl.2 * tile_j)
                     (Z.min tile_i (range_i - kl.1 * tile_i))
                     (Z.min tile_j (range_j - kl.2 * tile_j)) s')
            s (row_major (divide_round_up W range_i tile_i)
                 (divide_round_up W range_j tile_j))).
Proof.
  intros Hri Hrj Hti Htj Hfiti Hfitj Hfi Hfj.
  unfold pthreadpool_compute_2d_tiled.
  destruct (divide_round_up_bounds W range_i tile_i Hri Hti) as (Hilt & Hige & Hin & _).
  destruct (divide_round_up_bounds W range_j tile_j Hrj Htj) as (Hjlt & Hjge & Hjn & _).
  set (inner := fun i s' =>
    foldl (fun s'' l =>
             function argument i (l * tile_j)
               (Z.min tile_i (range_i - i))
               (Z.min tile_j (range_j - l * tile_j)) s'')
      s' (seqZ 0 (divide_round_up W range_j tile_j))).
  rewrite (for_loop_strided W range_i tile_i _ inner
             (Z.to_nat (divide_round_up W range_i tile_i))); try done; try lia.
  - rewrite strides_fmap, foldl_fmap, Z2Nat.id by done. f_equal.
    unfold row_major. rewrite foldl_bind.
    apply foldl_ext_in. intros s' k Hk.
    rewrite foldl_fmap, Z.add_0_l. done.
  - intros k Hk. rewrite Z2Nat.id in Hk by done.
    destruct (tile_offsets_in_range range_i tile_i k Hri Hti ltac:(lia)). lia.
  - intros k s' Hk. rewrite Z2Nat.id in Hk by done. rewrite Z.add_0_l.
    destruct (tile_offsets_in_range range_i tile_i k Hri Hti ltac:(lia)).
    rewrite (for_loop_strided W range_j tile_j _
               (fun j s'' => function argument (k * tile_i) j
                               (min (wrap W (range_i - k * tile_i)) tile_i)
                               (min (wrap W (range_j - j)) tile_j) s'')
               (Z.to_nat (divide_round_up W range_j tile_j))); try done; try lia.
    + rewrite strides_fmap, foldl_fmap, Z2Nat.id by done. f_equal.
      apply foldl_ext_in. intros s'' l Hl. apply elem_of_seqZ in Hl.
      destruct (tile_offsets_in_range range_j tile_j l Hrj Htj ltac:(lia)).
      destruct Hri, Hrj.
      rewrite Z.add_0_l, !clipped_width by lia. done.
    + intros l Hl. rewrite Z2Nat.id in Hl by done.
      destruct (tile_offsets_in_range range_j tile_j l Hrj Htj ltac:(lia)). lia.
Qed.
End TiledFallbacks.

(** ** Work stealing *)

Module WorkStealingFacts.
Import WorkStealing.

Lemma pending_nonneg v wss : 0 <= pending v wss.
Proof. induction wss as [|ws wss IH]; simpl; [done|]. destruct (claims v ws); lia. Qed.

Lemma count_active_nonneg wss : 0 <= count_active wss.
Proof. induction wss as [|ws wss IH]; simpl; [done|]. destruct (is_idle ws); lia. Qed.

Lemma count_active_le_length wss : count_active wss <= Z.of_nat (length wss).
Proof.
  induction wss as [|ws wss IH]; simpl length; simpl count_active; [done|].
  destruct (is_idle ws); lia.
Qed.

Lemma pending_le_active v wss : pending v wss <= count_active wss.
Proof.
  induction wss as [|ws wss IH]; simpl; [done|].
  destruct ws as [|slot side|]; simpl; try destruct (slot =? v)%nat; lia.
Qed.

Lemma pending_insert v wss w ws ws' :
  wss !! w = Some ws ->
  pending v (<[w := ws']> wss)
  = pending v wss - (if claims v ws then 1 else 0) + (if claims v ws' then 1 else 0).
Proof.
  revert w. induction wss as [|ws0 wss IH]; intros [|w] Hw; simplify_eq/=.
  - lia.
  - rewrite (IH w Hw). lia.
Qed.

Lemma count_active_insert wss w ws ws' :
  wss !! w = Some ws ->
  count_active (<[w := ws']> wss)
  = count_active wss - (if is_idle ws then 0 else 1) + (if is_idle ws' then 0 else 1).
Proof.
  revert w. induction wss as [|ws0 wss IH]; intros [|w] Hw; simplify_eq/=.
  - lia.
  - rewrite (IH w Hw). lia.
Qed.

Lemma pending_replicate_Running v n : pending v (replicate n Running) = 0.
Proof. induction n as [|n IH]; simpl; [done|]. by rewrite IH. Qed.

Lemma count_active_replicate_Running n :
  count_active (replicate n Running) = Z.of_nat n.
Proof. induction n as [|n IH]; [done|]. cbn [replicate count_active is_idle]. lia. Qed.

(** Taking one item out of one slot takes it out of the pool of items. *)
Lemma items_insert (sls : list thread_info) v sl sl' x :
  sls !! v = Some sl ->
  slot_items sl ≡ₚ x :: slot_items sl' ->
  concat (slot_items <$> sls) ≡ₚ x :: concat (slot_items <$> <[v := sl']> sls).
Proof.
  revert v. induction sls as [|sl0 sls IH]; intros [|v] Hv Hx; simplify_eq/=.
  - by rewrite Hx.
  - rewrite (IH v Hv Hx). symmetry. apply Permutation_middle.
Qed.

Lemma items_insert_same (sls : list thread_info) v sl sl' :
  sls !! v = Some sl ->
  slot_items sl' = slot_items sl ->
  slot_items <$> <[v := sl']> sls = slot_items <$> sls.
Proof.
  intros Hv Heq. rewrite list_fmap_insert, Heq.
  apply list_insert_id. by rewrite list_lookup_fmap, Hv.
Qed.

Lemma items_exhausted (sls : list thread_info) :
  Forall (fun sl => range_start sl = range_end sl) sls ->
  concat (slot_items <$> sls) = [].
Proof.
  induction 1 as [|sl sls Hsl _ IH]; [done|].
  rewrite fmap_cons. cbn [concat]. rewrite IH.
  unfold slot_items. rewrite seqZ_nil by lia. done.
Qed.

(** *** The partition made by [dispatch] *)

Lemma partition_start_succ N T t :
  0 < T ->
  partition_start N T (t + 1)
  = partition_start N T t + (N / T + (if t <? N mod T then 1 else 0)).
Proof.
  intros HT. unfold partition_start.
  destruct (Z.ltb_spec t (N mod T)); lia.
Qed.

Lemma partition_start_total N T : 0 < T -> partition_start N T T = N.
Proof.
  intros HT. unfold partition_start.
  pose proof (Z.mod_pos_bound N T HT). pose proof (Z.div_mod N T). lia.
Qed.

Lemma partition_length_nonneg N T t :
  0 <= N -> 0 < T -> 0 <= N / T + (if t <? N mod T then 1 else 0).
Proof.
  intros HN HT. assert (0 <= N / T) by (apply Z.div_pos; lia).
  destruct (t <? N mod T); lia.
Qed.

Lemma partition_start_nonneg N T t :
  0 <= N -> 0 < T -> 0 <= t -> 0 <= partition_start N T t.
Proof.
  intros HN HT Ht. unfold partition_start.
  assert (0 <= N / T) by (apply Z.div_pos; lia).
  pose proof (Z.mod_pos_bound N T HT). nia.
Qed.

Lemma partition_items N T (n : nat) :
  0 <= N -> 0 < T ->
  concat (slot_items <$> (partition_slot N T <$> seqZ 0 (Z.of_nat n)))
  = seqZ 0 (partition_start N T (Z.of_nat n)).
Proof.
  intros HN HT. induction n as [|n IH].
  - unfold partition_start. pose proof (Z.mod_pos_bound N T HT).
    rewrite (seqZ_nil 0 (_ + _)) by lia. done.
  - rewrite seqZ_S, !fmap_app, concat_app, IH, Z.add_0_l.
    rewrite Nat2Z.inj_succ, <- Z.add_1_r, partition_start_succ by done.
    rewrite seqZ_app.
    + simpl. rewrite app_nil_r. unfold slot_items. simpl.
      do 2 f_equal. lia.
    + apply partition_start_nonneg; lia.
    + by apply partition_length_nonneg.
Qed.

Lemma dispatch_invariant N T : 0 <= N -> 1 <= T -> invariant N (dispatch N T).
Proof.
  intros HN HT. split; simpl.
  - by rewrite length_replicate, length_fmap, length_seqZ.
  - intros v sl Hv. rewrite pending_replicate_Running.
    apply list_lookup_fmap_Some in Hv as (t & -> & Ht). simpl.
    pose proof (partition_length_nonneg N T t HN ltac:(lia)). lia.
  - rewrite <- (Z2Nat.id T) at 2 by lia.
    rewrite partition_items, Z2Nat.id, partition_start_total by lia. done.
  - rewrite count_active_replicate_Running, length_replicate. lia.
  - rewrite count_active_replicate_Running. lia.
  - intros w target side Hw. by apply lookup_replicate_1 in Hw as [? _].
Qed.

(** *** Every action preserves the invariant *)

Lemma try_claim_invariant N w target side st st' :
  invariant N st -> try_claim w target side st = Some st' -> invariant N st'.
Proof.
  intros [Hlen Hslot Hitems Hidle Hact Hcl]. unfold try_claim.
  destruct (workers st !! w) as [[| |]|] eqn:Hw; try done.
  destruct (slots st !! target) as [sl|] eqn:Ht; try done.
  destruct (Z.ltb_spec 0 (range_length sl)) as [Hpos|]; [|done].
  intros [= <-]. split; simpl.
  - by rewrite !length_insert.
  - intros v sl0 Hv. rewrite (pending_insert _ _ _ _ _ Hw). simpl.
    apply list_lookup_insert_Some in Hv as [(<- & <- & _)|(Hne & Hv)].
    + destruct (Hslot _ _ Ht) as [_ Heq]. rewrite Nat.eqb_refl. simpl. lia.
    + destruct (Hslot _ _ Hv) as [? ?].
      destruct (Nat.eqb_spec target v); [done|]. lia.
  - by rewrite (items_insert_same _ _ _ _ Ht).
  - rewrite (count_active_insert _ _ _ _ Hw), length_insert. simpl.
    intros Hsome. pose proof (Hidle ltac:(lia)) as Hex.
    apply (Forall_lookup_1 _ _ _ _ Hex) in Ht. lia.
  - rewrite (count_active_insert _ _ _ _ Hw). simpl. lia.
  - intros w0 target0 side0 Hw0.
    apply lookup_lt_is_Some. rewrite length_insert. apply lookup_lt_is_Some.
    apply list_lookup_insert_Some in Hw0 as [(_ & [= <- _] & _)|(_ & Hw0)];
      [by eexists | by eapply Hcl].
Qed.

Lemma take_invariant N w target side st st' :
  invariant N st ->
  workers st !! w = Some (Claimed target side) ->
  take w target side st = Some st' ->
  invariant N st'.
Proof.
  intros [Hlen Hslot Hitems Hidle Hact Hcl] Hw. unfold take.
  destruct (slots st !! target) as [sl|] eqn:Ht; [|done].
  destruct (Hslot _ _ Ht) as [Hnn Heq].
  pose proof (pending_insert target _ _ _ Running Hw) as Hp.
  pose proof (pending_nonneg target (<[w := Running]> (workers st))) as Hp'.
  simpl in Hp. rewrite Nat.eqb_refl in Hp.
  set (pick := match side with
               | TakeStart => (range_start sl, with_start sl (range_start sl + 1))
               | TakeEnd => (range_end sl - 1, with_end sl (range_end sl - 1))
               end).
  assert (Hpick : slot_items sl ≡ₚ pick.1 :: slot_items pick.2).
  { unfold pick, slot_items. destruct side; simpl.
    - rewrite (seqZ_cons (range_start sl)) by lia.
      replace (Z.succ (range_start sl)) with (range_start sl + 1) by lia.
      replace (Z.pred (range_end sl - range_start sl))
        with (range_end sl - (range_start sl + 1)) by lia. done.
    - replace (range_end sl - range_start sl)
        with ((range_end sl - 1 - range_start sl) + 1) by lia.
      rewrite seqZ_app by lia.
      replace (range_start sl + (range_end sl - 1 - range_start sl))
        with (range_end sl - 1) by lia.
      rewrite (seqZ_cons _ 1), (seqZ_nil _ (Z.pred 1)) by lia.
      symmetry. apply Permutation_cons_append. }
  assert (Hlenpick : range_length pick.2 = range_length sl)
    by (unfold pick; by destruct side).
  assert (Hbal : range_start pick.2 + range_length pick.2
                 + (pending target (workers st) - 1) = range_end pick.2)
    by (unfold pick; destruct side; simpl; lia).
  destruct pick as [index sl'] eqn:Hpk. simpl in Hpick, Hlenpick, Hbal.
  intros [= <-]. split; simpl.
  - by rewrite !length_insert.
  - intros v sl0 Hv. rewrite (pending_insert _ _ _ _ _ Hw). simpl.
    apply list_lookup_insert_Some in Hv as [(<- & <- & _)|(Hne & Hv)].
    + rewrite Nat.eqb_refl. lia.
    + destruct (Hslot _ _ Hv) as [? ?].
      destruct (Nat.eqb_spec target v); [done|]. lia.
  - rewrite fmap_app, <- app_assoc. simpl.
    rewrite <- (items_insert _ _ _ _ _ Ht Hpick). done.
  - rewrite (count_active_insert _ _ _ _ Hw), length_insert. simpl.
    intros Hsome. pose proof (Hidle ltac:(lia)) as Hex.
    apply Forall_insert; [done|].
    apply (Forall_lookup_1 _ _ _ _ Hex) in Ht. lia.
  - rewrite (count_active_insert _ _ _ _ Hw). simpl. lia.
  - intros w0 target0 side0 Hw0.
    apply lookup_lt_is_Some. rewrite length_insert. apply lookup_lt_is_Some.
    apply list_lookup_insert_Some in Hw0 as [(_ & [=] & _)|(_ & Hw0)].
    by eapply Hcl.
Qed.

Lemma step_invariant N e st st' :
  invariant N st -> step e st = Some st' -> invariant N st'.
Proof.
  intros Hinv. destruct e as [w|w victim|w|w]; simpl.
  - apply try_claim_invariant, Hinv.
  - destruct (own_exhausted w st && negb (w =? victim)%nat); [|done].
    apply try_claim_invariant, Hinv.
  - destruct (workers st !! w) as [[|target side|]|] eqn:Hw; try done.
    by apply take_invariant.
  - destruct (workers st !! w) as [[| |]|] eqn:Hw; try done.
    unfold all_exhausted.
    destruct (forallb _ (slots st)) eqn:Hall; [|done].
    intros [= <-]. destruct Hinv as [Hlen Hslot Hitems Hidle Hact Hcl].
    split; simpl.
    + by rewrite length_insert.
    + intros v sl Hv. rewrite (pending_insert _ _ _ _ _ Hw). simpl.
      destruct (Hslot _ _ Hv). lia.
    + done.
    + intros _. apply Forall_forall. intros sl Hsl.
      rewrite forallb_forall in Hall.
      apply list_elem_of_In, Hall in Hsl. lia.
    + rewrite (count_active_insert _ _ _ _ Hw). simpl. lia.
    + intros w0 target0 side0 Hw0.
      apply list_lookup_insert_Some in Hw0 as [(_ & [=] & _)|(_ & Hw0)].
      by eapply Hcl.
Qed.

Lemma run_invariant N sched : forall st st',
  invariant N st -> run sched st = Some st' -> invariant N st'.
Proof.
  induction sched as [|e sched IH]; intros st st' Hinv; simpl.
  - by intros [= <-].
  - destruct (step e st) as [st1|] eqn:He; [|done].
    apply IH. by apply (step_invariant N e st).
Qed.

(** When no worker is active any more, nothing is left in any slot. *)
Lemma invariant_complete N st :
  invariant N st ->
  slots st <> [] ->
  active_workers st = 0 ->
  snd <$> executed st ≡ₚ seqZ 0 N.
Proof.
  intros [Hlen Hslot Hitems Hidle Hact Hcl] Hne Hzero.
  rewrite Hact in Hzero.
  assert (Hex : Forall (fun sl => range_length sl = 0) (slots st)).
  { apply Hidle. destruct (slots st); [done|]. simpl in Hlen. lia. }
  rewrite items_exhausted, app_nil_r in Hitems; [done|].
  apply Forall_lookup. intros v sl Hv.
  destruct (Hslot _ _ Hv) as [_ Heq].
  apply (Forall_lookup_1 _ _ _ _ Hex) in Hv.
  pose proof (pending_le_active v (workers st)).
  pose proof (pending_nonneg v (workers st)). lia.
Qed.

(** *** Every schedule is finite, and can go on until all workers are idle *)

Lemma total_weight_insert wss w ws ws' :
  wss !! w = Some ws ->
  total_weight (<[w := ws']> wss)
  = total_weight wss - worker_weight ws + worker_weight ws'.
Proof.
  revert w. induction wss as [|ws0 wss IH]; intros [|w] Hw; simplify_eq/=.
  - lia.
  - rewrite (IH w Hw). lia.
Qed.

Lemma total_length_insert sls v sl sl' :
  sls !! v = Some sl ->
  total_length (<[v := sl']> sls)
  = total_length sls - range_length sl + range_length sl'.
Proof.
  revert v. induction sls as [|sl0 sls IH]; intros [|v] Hv; simplify_eq/=.
  - lia.
  - rewrite (IH v Hv). lia.
Qed.

Lemma step_work_left e st st' :
  step e st = Some st' -> work_left st' = work_left st - 1.
Proof.
  assert (Hclaim : forall w target side,
            try_claim w target side st = Some st' ->
            work_left st' = work_left st - 1).
  { intros w target side. unfold try_claim.
    destruct (workers st !! w) as [[| |]|] eqn:Hw; try done.
    destruct (slots st !! target) as [sl|] eqn:Ht; try done.
    destruct (0 <? range_length sl); [|done].
    intros [= <-]. unfold work_left. simpl.
    rewrite (total_length_insert _ _ _ _ Ht), (total_weight_insert _ _ _ _ Hw).
    simpl. lia. }
  destruct e as [w|w victim|w|w]; simpl.
  - apply Hclaim.
  - destruct (own_exhausted w st && negb (w =? victim)%nat); [|done].
    apply Hclaim.
  - destruct (workers st !! w) as [[|target side|]|] eqn:Hw; try done.
    unfold take. destruct (slots st !! target) as [sl|] eqn:Ht; [|done].
    destruct side; intros [= <-]; unfold work_left; simpl;
      rewrite (total_length_insert _ _ _ _ Ht), (total_weight_insert _ _ _ _ Hw);
      simpl; lia.
  - destruct (workers st !! w) as [[| |]|] eqn:Hw; try done.
    destruct (all_exhausted st); [|done].
    intros [= <-]. unfold work_left. simpl.
    rewrite (total_weight_insert _ _ _ _ Hw). simpl. lia.
Qed.

Lemma run_work_left sched : forall st st',
  run sched st = Some st' ->
  work_left st' = work_left st - Z.of_nat (length sched).
Proof.
  induction sched as [|e sched IH]; intros st st'; simpl run.
  - intros [= <-]. simpl. lia.
  - destruct (step e st) as [st1|] eqn:He; [|done].
    intros Hrun. rewrite (IH _ _ Hrun), (step_work_left _ _ _ He).
    simpl length. lia.
Qed.

Lemma total_weight_nonneg wss : 0 <= total_weight wss.
Proof. induction wss as [|[| |] wss IH]; simpl; lia. Qed.

Lemma total_length_nonneg sls :
  Forall (fun sl => 0 <= range_length sl) sls -> 0 <= total_length sls.
Proof. induction 1; simpl; lia. Qed.

Lemma work_left_nonneg N st : invariant N st -> 0 <= work_left st.
Proof.
  intros Hinv. unfold work_left.
  pose proof (total_weight_nonneg (workers st)).
  assert (0 <= total_length (slots st)); [|lia].
  apply total_length_nonneg, Forall_lookup. intros v sl Hv.
  by destruct (inv_slot _ _ Hinv _ _ Hv).
Qed.

Lemma total_length_app sls sls' :
  total_length (sls ++ sls') = total_length sls + total_length sls'.
Proof. induction sls as [|sl sls IH]; simpl; lia. Qed.

Lemma partition_total_length N T (n : nat) :
  0 < T ->
  total_length (partition_slot N T <$> seqZ 0 (Z.of_nat n))
  = partition_start N T (Z.of_nat n) - partition_start N T 0.
Proof.
  intros HT. induction n as [|n IH].
  - rewrite seqZ_nil by lia. cbn [fmap list_fmap total_length].
    change (Z.of_nat 0) with 0. lia.
  - rewrite seqZ_S, fmap_app, total_length_app, IH, Z.add_0_l.
    rewrite Nat2Z.inj_succ, <- Z.add_1_r, partition_start_succ by done.
    simpl. lia.
Qed.

Lemma total_weight_replicate_Running n :
  total_weight (replicate n Running) = Z.of_nat n.
Proof. induction n as [|n IH]; [done|]. cbn [replicate total_weight worker_weight]. lia. Qed.

Lemma dispatch_work_left N T :
  0 <= N -> 1 <= T -> work_left (dispatch N T) = 2 * N + T.
Proof.
  intros HN HT. unfold work_left, dispatch. simpl.
  rewrite total_weight_replicate_Running.
  rewrite <- (Z2Nat.id T) at 2 by lia.
  rewrite partition_total_length, !Z2Nat.id, partition_start_total by lia.
  unfold partition_start. pose proof (Z.mod_pos_bound N T ltac:(lia)). lia.
Qed.

(** No schedule of a dispatch over [N] items by [T] workers has more
    than [2 * N + T] actions. *)
Lemma schedule_bounded N T sched st :
  0 <= N -> 1 <= T ->
  run sched (dispatch N T) = Some st ->
  Z.of_nat (length sched) <= 2 * N + T.
Proof.
  intros HN HT Hrun.
  pose proof (run_work_left _ _ _ Hrun) as Hwork.
  rewrite dispatch_work_left in Hwork by done.
  pose proof (work_left_nonneg N st
                (run_invariant N sched _ _ (dispatch_invariant N T HN HT) Hrun)).
  lia.
Qed.

Lemma active_worker_exists wss :
  0 < count_active wss ->
  exists w ws, wss !! w = Some ws /\ is_idle ws = false.
Proof.
  induction wss as [|ws wss IH]; simpl; [lia|].
  destruct (is_idle ws) eqn:Hidle.
  - intros Hpos. destruct IH as (w & ws' & Hw & Hws'); [lia|].
    by exists (S w), ws'.
  - intros _. by exists 0%nat, ws.
Qed.

Lemma unexhausted_slot_exists sls :
  forallb (fun sl => range_length sl =? 0) sls = false ->
  exists v sl, sls !! v = Some sl /\ range_length sl <> 0.
Proof.
  induction sls as [|sl sls IH]; simpl; [done|].
  destruct (Z.eqb_spec (range_length sl) 0) as [Hz|Hnz]; simpl.
  - intros Hall. destruct (IH Hall) as (v & sl' & Hv & Hsl').
    by exists (S v), sl'.
  - intros _. by exists 0%nat, sl.
Qed.

(** As long as a worker is active, some action is enabled: no schedule
    gets stuck before the dispatch is complete. *)
Lemma progress N st :
  invariant N st -> 0 < active_workers st ->
  exists e st', step e st = Some st'.
Proof.
  intros [Hlen Hslot Hitems Hidle Hact Hcl] Hpos. rewrite Hact in Hpos.
  destruct (active_worker_exists _ Hpos) as (w & ws & Hw & Hws).
  destruct ws as [|target side|]; [| |done].
  - assert (is_Some (slots st !! w)) as [sl Hsl].
    { apply lookup_lt_is_Some. rewrite <- Hlen. apply lookup_lt_is_Some. eauto. }
    destruct (Hslot _ _ Hsl) as [Hnn _].
    destruct (Z.ltb_spec 0 (range_length sl)) as [Hlt|Hge].
    + exists (ClaimOwn w). simpl. unfold try_claim. rewrite Hw, Hsl.
      rewrite (proj2 (Z.ltb_lt _ _) Hlt). eauto.
    + destruct (all_exhausted st) eqn:Hall.
      * exists (Finish w). simpl. rewrite Hw, Hall. eauto.
      * destruct (unexhausted_slot_exists _ Hall) as (v & sl' & Hv & Hsl').
        destruct (Hslot _ _ Hv) as [Hnn' _].
        exists (Steal w v). simpl. unfold own_exhausted, try_claim.
        rewrite Hsl, Hw, Hv.
        rewrite (proj2 (Z.eqb_eq _ _)) by lia.
        destruct (Nat.eqb_spec w v) as [->|Hne]; [simplify_eq; lia|].
        simpl. rewrite (proj2 (Z.ltb_lt _ _)) by lia. eauto.
  - destruct (Hcl _ _ _ Hw) as [sl Hsl].
    exists (Take w). simpl. rewrite Hw. unfold take. rewrite Hsl.
    destruct side; eauto.
Qed.

Lemma step_length_workers e st st' :
  step e st = Some st' -> length (workers st') = length (workers st).
Proof.
  assert (Hclaim : forall w target side,
            try_claim w target side st = Some st' ->
            length (workers st') = length (workers st)).
  { intros w target side. unfold try_claim.
    destruct (workers st !! w) as [[| |]|]; try done.
    destruct (slots st !! target) as [sl|]; try done.
    destruct (0 <? range_length sl); [|done].
    intros [= <-]. apply length_insert. }
  destruct e as [w|w victim|w|w]; simpl.
  - apply Hclaim.
  - destruct (own_exhausted w st && negb (w =? victim)%nat); [|done].
    apply Hclaim.
  - destruct (workers st !! w) as [[|target side|]|]; try done.
    unfold take. destruct (slots st !! target) as [sl|]; [|done].
    destruct side; intros [= <-]; apply length_insert.
  - destruct (workers st !! w) as [[| |]|]; try done.
    destruct (all_exhausted st); [|done].
    intros [= <-]. apply length_insert.
Qed.

Lemma run_length_workers sched : forall st st',
  run sched st = Some st' -> length (workers st') = length (workers st).
Proof.
  induction sched as [|e sched IH]; intros st st'; simpl run.
  - by intros [= <-].
  - destruct (step e st) as [st1|] eqn:He; [|done].
    intros Hrun. rewrite (IH _ _ Hrun). by apply (step_length_workers e).
Qed.

Lemma run_app sched sched' st :
  run (sched ++ sched') st
  = match run sched st with
    | Some st' => run sched' st'
    | None => None
    end.
Proof.
  revert st. induction sched as [|e sched IH]; intros st; simpl; [done|].
  destruct (step e st); [apply IH | done].
Qed.

(** Every schedule of a dispatch can be continued until no worker is
    active: the dispatch returns under every interleaving. *)
Lemma schedule_completes N T sched st :
  0 <= N -> 1 <= T ->
  run sched (dispatch N T) = Some st ->
  exists sched' st',
    run (sched ++ sched') (dispatch N T) = Some st'
    /\ active_workers st' = 0.
Proof.
  intros HN HT.
  remember (Z.to_nat (work_left st)) as n eqn:Hn.
  revert sched st Hn. induction n as [|n IH]; intros sched st Hn Hrun.
  - pose proof (run_invariant N sched _ _ (dispatch_invariant N T HN HT) Hrun)
      as Hinv.
    pose proof (work_left_nonneg N st Hinv) as Hnn.
    exists [], st. rewrite app_nil_r. split; [done|].
    pose proof (count_active_nonneg (workers st)).
    rewrite (inv_active _ _ Hinv).
    destruct (Z.eq_dec (count_active (workers st)) 0) as [|Hne]; [done|].
    destruct (progress N st Hinv) as (e & st1 & He).
    { rewrite (inv_active _ _ Hinv). lia. }
    pose proof (step_work_left _ _ _ He) as Hdec.
    assert (Hrun1 : run (sched ++ [e]) (dispatch N T) = Some st1)
      by (rewrite run_app, Hrun; simpl; by rewrite He).
    pose proof (work_left_nonneg N st1
      (run_invariant N _ _ _ (dispatch_invariant N T HN HT) Hrun1)). lia.
  - pose proof (run_invariant N sched _ _ (dispatch_invariant N T HN HT) Hrun)
      as Hinv.
    destruct (Z.eq_dec (active_workers st) 0) as [Hz|Hne].
    { exists [], st. by rewrite app_nil_r. }
    pose proof (count_active_nonneg (workers st)).
    destruct (progress N st Hinv) as (e & st1 & He).
    { rewrite (inv_active _ _ Hinv) in *. lia. }
    pose proof (step_work_left _ _ _ He) as Hdec.
    assert (Hrun1 : run (sched ++ [e]) (dispatch N T) = Some st1)
      by (rewrite run_app, Hrun; simpl; by rewrite He).
    destruct (IH (sched ++ [e]) st1 ltac:(lia) Hrun1) as (sched' & st' & Hrun' & Hdone).
    exists (e :: sched'), st'. split; [|done].
    by rewrite <- app_assoc in Hrun'.
Qed.

Lemma NoDup_fmap_eq {A B : Type} (f : A -> B) (l : list A) x y :
  NoDup (f <$> l) -> x ∈ l -> y ∈ l -> f x = f y -> x = y.
Proof.
  induction l as [|a l IH]; intros Hnd Hx Hy Hf.
  - by apply elem_of_nil in Hx.
  - rewrite fmap_cons in Hnd. apply NoDup_cons in Hnd as [Hnotin Hnd].
    apply elem_of_cons in Hx as [->|Hx], Hy as [->|Hy]; auto.
    + exfalso. apply Hnotin. rewrite Hf. by apply list_elem_of_fmap_2.
    + exfalso. apply Hnotin. rewrite <- Hf. by apply list_elem_of_fmap_2.
Qed.

(** At every state that a schedule reaches, no index has been executed
    twice and every executed index is one of the dispatched range. *)
Lemma invariant_executed N st :
  invariant N st ->
  NoDup (snd <$> executed st)
  /\ (forall i, i ∈ (snd <$> executed st) -> 0 <= i < N).
Proof.
  intros Hinv. pose proof (inv_items _ _ Hinv) as Hitems. split.
  - assert (NoDup ((snd <$> executed st) ++ concat (slot_items <$> slots st)))
      as Hnd by (rewrite Hitems; apply NoDup_seqZ).
    by apply NoDup_app in Hnd as (? & _ & _).
  - intros i Hi.
    assert (i ∈ seqZ 0 N) as Hin
      by (rewrite <- Hitems; apply elem_of_app; by left).
    apply elem_of_seqZ in Hin. lia.
Qed.

Lemma no_active_all_idle wss :
  count_active wss = 0 -> forall w ws, wss !! w = Some ws -> ws = Idle.
Proof.
  induction wss as [|ws0 wss IH]; intros Hzero w ws Hw; [done|].
  simpl in Hzero. pose proof (count_active_nonneg wss).
  destruct ws0; simpl in Hzero; try lia.
  destruct w as [|w]; simpl in Hw; [by injection Hw as <-|].
  apply (IH ltac:(lia) w ws Hw).
Qed.

(** Once no worker is active, no action is enabled: nothing more is
    executed. *)
Lemma step_when_done N e st :
  invariant N st -> active_workers st = 0 -> step e st = None.
Proof.
  intros Hinv Hdone. rewrite (inv_active _ _ Hinv) in Hdone.
  pose proof (no_active_all_idle _ Hdone) as Hidle.
  assert (Hclaim : forall w target side, try_claim w target side st = None).
  { intros w target side. unfold try_claim.
    destruct (workers st !! w) as [ws|] eqn:Hw; [|done].
    by rewrite (Hidle _ _ Hw). }
  destruct e as [w|w victim|w|w]; simpl.
  - apply Hclaim.
  - rewrite Hclaim. by destruct (_ && _).
  - destruct (workers st !! w) as [ws|] eqn:Hw; [|done].
    by rewrite (Hidle _ _ Hw).
  - destruct (workers st !! w) as [ws|] eqn:Hw; [|done].
    by rewrite (Hidle _ _ Hw).
Qed.

(** C3.  For a dispatch over [N >= 0] items by [T >= 1] workers, whatever
    the schedule (the interleaving of the claims, takes and steals of the
    workers), at every state the schedule reaches no index has been
    executed twice and only indices of [0, N) have been executed; the
    schedule has at most [2 * N + T] actions; as long as a worker is
    active some action is enabled, and the schedule can be continued
    until no worker is active.  When no worker is active any more,
    nothing more is executed and the indices on which the callback has
    been invoked are exactly 0, ..., N - 1: as a multiset they are a
    permutation of that sequence, so none is duplicated and none is
    omitted, and each index was executed by one worker only. *)
Theorem dispatch_executes_each_index_once (N T : Z) (sched : list event)
    (st : state) :
  0 <= N ->
  1 <= T ->
  run sched (dispatch N T) = Some st ->
  (active_workers st = 0 ->
     snd <$> executed st ≡ₚ seqZ 0 N
     /\ (forall i, 0 <= i < N ->
           exists w, (w, i) ∈ executed st
                     /\ forall w', (w', i) ∈ executed st -> w' = w)
     /\ (forall e, step e st = None))
  /\ NoDup (snd <$> executed st)
  /\ (forall w i, (w, i) ∈ executed st -> 0 <= i < N)
  /\ Z.of_nat (length sched) <= 2 * N + T
  /\ (0 < active_workers st -> exists e st', step e st = Some st')
  /\ (exists sched' st',
        run (sched ++ sched') (dispatch N T) = Some st'
        /\ active_workers st' = 0).
Proof.
  intros HN HT Hrun.
  pose proof (run_invariant N sched _ _ (dispatch_invariant N T HN HT) Hrun)
    as Hinv.
  destruct (invariant_executed N st Hinv) as [Hnd Hrange].
  split; [|split; [done|split; [|split; [|split]]]].
  - intros Hdone.
    assert (Hperm : snd <$> executed st ≡ₚ seqZ 0 N).
    { apply (invariant_complete N st Hinv); [|done].
      intros Hnil. pose proof (inv_workers _ _ Hinv) as Hlen.
      rewrite (run_length_workers _ _ _ Hrun), Hnil in Hlen.
      simpl in Hlen. rewrite length_replicate in Hlen. lia. }
    split; [done|]. split.
    + intros i Hi.
      assert (i ∈ (snd <$> executed st)) as Hin
        by (rewrite Hperm, elem_of_seqZ; lia).
      apply list_elem_of_fmap in Hin as ([w i'] & -> & Hin). simpl in *.
      exists w. split; [done|]. intros w' Hin'.
      by injection (NoDup_fmap_eq snd _ _ _ Hnd Hin' Hin eq_refl).
    + intros e. by apply (step_when_done N).
  - intros w i Hin. apply Hrange.
    by apply (list_elem_of_fmap_2 snd _ (w, i)).
  - by apply (schedule_bounded N T sched st).
  - by apply (progress N).
  - by apply (schedule_completes N T sched st).
Qed.

Lemma dispatch_executes_each_index_once_witness :
  exists st,
    run example_schedule (dispatch 3 2) = Some st
    /\ executed st = [(1%nat, 2); (0%nat, 0); (1%nat, 1)]
    /\ snd <$> executed st ≡ₚ seqZ 0 3.
Proof.
  eexists. split; [vm_compute; reflexivity|]. split; [reflexivity|].
  refine (proj1 (proj1 (dispatch_executes_each_index_once 3 2 example_schedule _
                          _ _ _) _)).
  - lia.
  - lia.
  - vm_compute. reflexivity.
  - reflexivity.
Defined.
End WorkStealingFacts.

(* ===================================================================== *)
(** * The entry points *)

(** C1.  With an absent pool, [pthreadpool_compute_1d] invokes the callback
    once for each index 0, 1, ..., N - 1, in increasing order, in the
    caller's own sequence of actions: whatever the callback does, the state
    after the call is the one obtained by calling it on 0, ..., N - 1 in
    turn, and the calls recorded are exactly 0, ..., N - 1; these are
    0, 1, 2, 3, 4 for N = 5, and there is no call for N = 0. *)
Theorem compute_1d_absent_pool_in_order W (A St : Type)
    (function : pthreadpool_function_1d_t A St) (argument : A)
    (range : Z) (s : St) (fuel : nat) :
  is_size_t W range ->
  (Z.to_nat range < fuel)%nat ->
  pthreadpool_compute_1d W fuel None function argument range s
  = Some (foldl (fun s' i => function argument i s') s (seqZ 0 range))
  /\ calls_1d W fuel None range = Some (seqZ 0 range)
  /\ (range = 5 -> calls_1d W fuel None range = Some [0; 1; 2; 3; 4])
  /\ (range = 0 -> calls_1d W fuel None range = Some []).
Proof.
  intros Hr Hfuel.
  assert (Hcalls : calls_1d W fuel None range = Some (seqZ 0 range)).
  { unfold calls_1d. rewrite compute_1d_fallback by done.
    unfold record_1d. by rewrite foldl_record. }
  split; [by apply compute_1d_fallback|].
  split; [done|].
  split; intros ->; by rewrite Hcalls.
Qed.

Lemma compute_1d_absent_pool_in_order_witness :
  is_size_t SIZEOF_SIZE_T_8 5 /\ (Z.to_nat 5 < 6)%nat
  /\ calls_1d SIZEOF_SIZE_T_8 6 None 5 = Some [0; 1; 2; 3; 4].
Proof.
  assert (H5 : is_size_t SIZEOF_SIZE_T_8 5) by (unfold is_size_t; vm_compute; intuition discriminate).
  assert (Hf : (Z.to_nat 5 < 6)%nat) by (vm_compute; lia).
  split; [exact H5|]. split; [exact Hf|].
  exact (proj1 (proj2 (proj2
    (compute_1d_absent_pool_in_order SIZEOF_SIZE_T_8 unit (list Z)
       record_1d tt 5 [] 6 H5 Hf))) eq_refl).
Defined.

(** C2, as amended.  With a present pool, [pthreadpool_compute_1d] returns
    at once: there is no dispatch to delegate to, the callback is invoked
    for no index and the caller's state is unchanged, for every pool,
    callback, argument and range. *)
Theorem compute_1d_present_pool_returns W (A St : Type) (fuel : nat)
    (tp : pthreadpool) (function : pthreadpool_function_1d_t A St)
    (argument : A) (range : Z) (s : St) :
  pthreadpool_compute_1d W fuel (Some tp) function argument range s = Some s
  /\ calls_1d W fuel (Some tp) range = Some [].
Proof. done. Qed.

(** C2, as stated, fails: with the present pool [example_pool] and a range
    of one index, index 0 is never passed to the callback. *)
Lemma compute_1d_present_pool_never_invokes :
  ~ (exists fuel calls,
       calls_1d SIZEOF_SIZE_T_8 fuel (Some example_pool) 1 = Some calls
       /\ 0 ∈ calls).
Proof.
  intros (fuel & calls & Hcalls & Hin).
  unfold calls_1d in Hcalls. simpl in Hcalls.
  injection Hcalls as <-. by apply elem_of_nil in Hin.
Qed.

(** C4.  With an absent pool, [pthreadpool_compute_2d] invokes the callback
    once for each pair (i, j) of the grid, in row-major increasing order;
    for a 2 by 3 grid the calls are (0,0), (0,1), (0,2), (1,0), (1,1),
    (1,2). *)
Theorem compute_2d_absent_pool_row_major W (A St : Type)
    (function : pthreadpool_function_2d_t A St) (argument : A)
    (range_i range_j : Z) (s : St) (fuel : nat) :
  is_size_t W range_i ->
  is_size_t W range_j ->
  (Z.to_nat range_i < fuel)%nat ->
  (Z.to_nat range_j < fuel)%nat ->
  pthreadpool_compute_2d W fuel None function argument range_i range_j s
  = Some (foldl (fun s' ij => function argument ij.1 ij.2 s') s
            (row_major range_i range_j))
  /\ calls_2d W fuel None range_i range_j = Some (row_major range_i range_j)
  /\ (range_i = 2 -> range_j = 3 ->
      calls_2d W fuel None range_i range_j
      = Some [(0, 0); (0, 1); (0, 2); (1, 0); (1, 1); (1, 2)]).
Proof.
  intros Hi Hj Hfi Hfj.
  assert (Hcalls : calls_2d W fuel None range_i range_j
                   = Some (row_major range_i range_j)).
  { unfold calls_2d. rewrite compute_2d_fallback by done. f_equal.
    unfold record_2d.
    rewrite (foldl_ext_in _ (fun calls ij => calls ++ [ij])), foldl_record; [done|].
    by intros calls [i j] _. }
  split; [by apply compute_2d_fallback|].
  split; [done|].
  intros -> ->. by rewrite Hcalls.
Qed.

Lemma compute_2d_absent_pool_row_major_witness :
  calls_2d SIZEOF_SIZE_T_4 4 None 2 3
  = Some [(0, 0); (0, 1); (0, 2); (1, 0); (1, 1); (1, 2)].
Proof.
  assert (H2 : is_size_t SIZEOF_SIZE_T_4 2) by (unfold is_size_t; vm_compute; intuition discriminate).
  assert (H3 : is_size_t SIZEOF_SIZE_T_4 3) by (unfold is_size_t; vm_compute; intuition discriminate).
  assert (Hf2 : (Z.to_nat 2 < 4)%nat) by (vm_compute; lia).
  assert (Hf3 : (Z.to_nat 3 < 4)%nat) by (vm_compute; lia).
  exact (proj2 (proj2
    (compute_2d_absent_pool_row_major SIZEOF_SIZE_T_4 unit (list (Z * Z))
       record_2d tt 2 3 [] 4 H2 H3 Hf2 Hf3)) eq_refl eq_refl).
Defined.

(** ** Tiled fallbacks without wrap-around *)

(** When the loop index does not wrap around before it reaches the range
    (the range rounded up to a multiple of the tile fits [size_t]), the
    chunks of the 1-D tiled fallback start at the multiples of the tile and
    the last one is clipped. *)
Lemma tiled_1d_chunks W (range tile : Z) (fuel : nat) :
  is_size_t W range ->
  1 <= tile <= SIZE_MAX W ->
  divide_round_up W range tile * tile <= SIZE_MAX W ->
  (Z.to_nat (divide_round_up W range tile) < fuel)%nat ->
  calls_1d_tiled W fuel None range tile
  = Some ((fun k => (k * tile, Z.min tile (range - k * tile)))
            <$> seqZ 0 (divide_round_up W range tile)).
Proof.
  intros Hr Ht Hfit Hfuel. unfold calls_1d_tiled.
  rewrite compute_1d_tiled_fallback by done. f_equal.
  unfold record_1d_tiled.
  rewrite <- (foldl_fmap (fun calls c => calls ++ [c])), foldl_record. done.
Qed.

(** Under the same condition the fallback loop does what the adapter
    [compute_1d_tiled] does on the tile indices
    0, ..., [divide_round_up range tile] - 1. *)
Lemma tiled_1d_fallback_adapter W (A St : Type)
    (function : pthreadpool_function_1d_tiled_t A St) (argument : A)
    (range tile : Z) (s : St) (fuel : nat) :
  is_size_t W range ->
  1 <= tile <= SIZE_MAX W ->
  divide_round_up W range tile * tile <= SIZE_MAX W ->
  (Z.to_nat (divide_round_up W range tile) < fuel)%nat ->
  pthreadpool_compute_1d_tiled W fuel None function argument range tile s
  = Some (foldl (fun s' k =>
                   compute_1d_tiled W
                     {| tiled_1d_function := function;
                        tiled_1d_argument := argument;
                        tiled_1d_range := range;
                        tiled_1d_tile := tile |} k s')
            s (seqZ 0 (divide_round_up W range tile))).
Proof.
  intros Hr Ht Hfit Hfuel.
  rewrite compute_1d_tiled_fallback by done. f_equal.
  apply foldl_ext_in. intros s' k Hk. apply elem_of_seqZ in Hk.
  destruct (tile_offsets_in_range W range tile k Hr Ht ltac:(lia)).
  unfold compute_1d_tiled. simpl. destruct Hr.
  rewrite (wrap_small W (k * tile)) by lia.
  rewrite (wrap_small W (range - k * tile)) by lia.
  by rewrite min_spec.
Qed.

(** The adapter never wraps around: for every range and tile, tile index
    [k] below [divide_round_up range tile] is passed offset [k * tile] and
    the clipped width. *)
Lemma compute_1d_tiled_chunk W (A St : Type)
    (function : pthreadpool_function_1d_tiled_t A St) (argument : A)
    (range tile k : Z) (s : St) :
  is_size_t W range ->
  1 <= tile <= SIZE_MAX W ->
  0 <= k < divide_round_up W range tile ->
  compute_1d_tiled W
    {| tiled_1d_function := function; tiled_1d_argument := argument;
       tiled_1d_range := range; tiled_1d_tile := tile |} k s
  = function argument (k * tile) (Z.min tile (range - k * tile)) s.
Proof.
  intros Hr Ht Hk.
  destruct (tile_offsets_in_range W range tile k Hr Ht Hk).
  unfold compute_1d_tiled. simpl. destruct Hr.
  rewrite (wrap_small W (k * tile)) by lia.
  rewrite (wrap_small W (range - k * tile)) by lia.
  by rewrite min_spec.
Qed.

(** So does the 2-D adapter, on the tile indices of a grid of
    [divide_round_up range_i tile_i] by [divide_round_up range_j tile_j]
    tiles. *)
Lemma compute_2d_tiled_chunk W (A St : Type)
    (function : pthreadpool_function_2d_tiled_t A St) (argument : A)
    (range_i range_j tile_i tile_j l : Z) (s : St) :
  is_size_t W range_i -> is_size_t W range_j ->
  1 <= tile_i <= SIZE_MAX W -> 1 <= tile_j <= SIZE_MAX W ->
  0 <= l < divide_round_up W range_i tile_i * divide_round_up W range_j tile_j ->
  let tile_range_j := divide_round_up W range_j tile_j in
  compute_2d_tiled W
    {| tiled_2d_function := function; tiled_2d_argument := argument;
       tiled_2d_tile_range_j := {| value := tile_range_j |};
       tiled_2d_range_i := range_i; tiled_2d_range_j := range_j;
       tiled_2d_tile_i := tile_i; tiled_2d_tile_j := tile_j |} l s
  = function argument
      (l / tile_range_j * tile_i) (l mod tile_range_j * tile_j)
      (Z.min tile_i (range_i - l / tile_range_j * tile_i))
      (Z.min tile_j (range_j - l mod tile_range_j * tile_j)) s.
Proof.
  intros Hri Hrj Hti Htj Hl tile_range_j.
  destruct (divide_round_up_bounds W range_j tile_j Hrj Htj) as (_ & _ & Hn & _).
  assert (0 < tile_range_j) as Hpos.
  { destruct (Z.eq_dec tile_range_j 0) as [Hz|Hnz]; [|unfold tile_range_j in *; lia].
    fold tile_range_j in Hl. rewrite Hz, Z.mul_0_r in Hl. lia. }
  pose proof (Z.mod_pos_bound l tile_range_j Hpos) as Hrem.
  assert (0 <= l / tile_range_j < divide_round_up W range_i tile_i) as Hquo.
  { split; [apply Z.div_pos; lia|]. apply Z.div_lt_upper_bound; [done|].
    fold tile_range_j in Hl. lia. }
  destruct (tile_offsets_in_range W range_i tile_i _ Hri Hti Hquo).
  destruct (tile_offsets_in_range W range_j tile_j _ Hrj Htj Hrem).
  unfold compute_2d_tiled. simpl. destruct Hri, Hrj.
  rewrite (wrap_small W (l / tile_range_j * tile_i)) by lia.
  rewrite (wrap_small W (l mod tile_range_j * tile_j)) by lia.
  rewrite (wrap_small W (range_i - _)), (wrap_small W (range_j - _)) by lia.
  by rewrite !min_spec.
Qed.

Example tiled_1d_chunks_10_4 :
  calls_1d_tiled SIZEOF_SIZE_T_8 4 None 10 4 = Some [(0, 4); (4, 4); (8, 2)].
Proof. vm_compute. reflexivity. Qed.

(** The 2-D tiled fallback, when neither loop index wraps around. *)
Lemma tiled_2d_chunks W (range_i range_j tile_i tile_j : Z) (fuel : nat) :
  is_size_t W range_i -> is_size_t W range_j ->
  1 <= tile_i <= SIZE_MAX W -> 1 <= tile_j <= SIZE_MAX W ->
  divide_round_up W range_i tile_i * tile_i <= SIZE_MAX W ->
  divide_round_up W range_j tile_j * tile_j <= SIZE_MAX W ->
  (Z.to_nat (divide_round_up W range_i tile_i) < fuel)%nat ->
  (Z.to_nat (divide_round_up W range_j tile_j) < fuel)%nat ->
  calls_2d_tiled W fuel None range_i range_j tile_i tile_j
  = Some ((fun kl => (kl.1 * tile_i, kl.2 * tile_j,
                      Z.min tile_i (range_i - kl.1 * tile_i),
                      Z.min tile_j (range_j - kl.2 * tile_j)))
            <$> row_major (divide_round_up W range_i tile_i)
                  (divide_round_up W range_j tile_j)).
Proof.
  intros. unfold calls_2d_tiled.
  rewrite compute_2d_tiled_fallback by done. f_equal.
  unfold record_2d_tiled.
  rewrite <- (foldl_fmap (fun calls c => calls ++ [c])), foldl_record. done.
Qed.

(** The tiled fallbacks exit when no loop index wraps around. *)
Lemma tiled_1d_terminates W (A St : Type)
    (function : pthreadpool_function_1d_tiled_t A St) (argument : A)
    (range tile : Z) (s : St) :
  is_size_t W range ->
  1 <= tile <= SIZE_MAX W ->
  divide_round_up W range tile * tile <= SIZE_MAX W ->
  exists fuel s',
    pthreadpool_compute_1d_tiled W fuel None function argument range tile s
    = Some s'.
Proof.
  intros Hr Ht Hfit.
  exists (S (Z.to_nat (divide_round_up W range tile))). eexists.
  apply compute_1d_tiled_fallback; try done. lia.
Qed.

Lemma tiled_2d_terminates W (A St : Type)
    (function : pthreadpool_function_2d_tiled_t A St) (argument : A)
    (range_i range_j tile_i tile_j : Z) (s : St) :
  is_size_t W range_i -> is_size_t W range_j ->
  1 <= tile_i <= SIZE_MAX W -> 1 <= tile_j <= SIZE_MAX W ->
  divide_round_up W range_i tile_i * tile_i <= SIZE_MAX W ->
  divide_round_up W range_j tile_j * tile_j <= SIZE_MAX W ->
  exists fuel s',
    pthreadpool_compute_2d_tiled W fuel None function argument
      range_i range_j tile_i tile_j s
    = Some s'.
Proof.
  intros.
  exists (S (Z.to_nat (divide_round_up W range_i tile_i)
             `max` Z.to_nat (divide_round_up W range_j tile_j))).
  eexists. apply compute_2d_tiled_fallback; try done; lia.
Qed.

(** With a tile of 0 and a non-empty range the index never advances. *)
Lemma tiled_1d_zero_tile_diverges W (A St : Type)
    (function : pthreadpool_function_1d_tiled_t A St) (argument : A)
    (range : Z) (s : St) (fuel : nat) :
  0 < range ->
  pthreadpool_compute_1d_tiled W fuel None function argument range 0 s = None.
Proof.
  intros Hr. unfold pthreadpool_compute_1d_tiled.
  apply for_loop_stuck.
  - by apply Z.ltb_lt.
  - by destruct W.
Qed.

Lemma tiled_2d_zero_tile_diverges W (A St : Type)
    (function : pthreadpool_function_2d_tiled_t A St) (argument : A)
    (range_i range_j tile_i tile_j : Z) (s : St) (fuel : nat) :
  0 < range_i -> 0 < range_j ->
  tile_i = 0 \/ tile_j = 0 ->
  pthreadpool_compute_2d_tiled W fuel None function argument
    range_i range_j tile_i tile_j s = None.
Proof.
  intros Hi Hj [-> | ->]; unfold pthreadpool_compute_2d_tiled.
  - apply for_loop_stuck; [by apply Z.ltb_lt | by destruct W].
  - apply for_loop_body_diverges; [by apply Z.ltb_lt|].
    apply for_loop_stuck; [by apply Z.ltb_lt | by destruct W].
Qed.

(** C5, at an input where the loop index wraps around.  On both platforms,
    for a range of 3/4 of the [size_t] modulus and a tile of 5/8 of it,
    the 1-D tiled fallback returns after three chunks; the index of the
    third one is the wrapped sum of the first two offsets, a quarter of
    the modulus, which is not a multiple of the tile, and that chunk covers
    again items of the first one. *)
Theorem tiled_1d_offset_wraps W (extra : nat) :
  let range := 3 * 2 ^ (size_bits W - 2) in
  let tile := 5 * 2 ^ (size_bits W - 3) in
  calls_1d_tiled W (4 + extra) None range tile
  = Some [ (0, tile);
           (tile, 2 ^ (size_bits W - 3));
           (2 ^ (size_bits W - 2), 2 ^ (size_bits W - 1)) ]
  /\ (2 ^ (size_bits W - 2)) mod tile <> 0
  /\ 1 <= tile <= SIZE_MAX W
  /\ is_size_t W range.
Proof.
  destruct W; vm_compute; repeat split; congruence.
Qed.

(** C9, at an input where the loop index wraps around.  On both platforms,
    for a range of [SIZE_MAX] and a tile of 2 the index of the 1-D tiled
    fallback takes the even values only, never reaches the odd range, and
    wraps around to 0: the loop does not exit, whatever the bound on the
    number of iterations.  The same holds of the outer loop of the 2-D
    tiled fallback. *)
Theorem tiled_index_wraps_forever W (A St : Type)
    (function1 : pthreadpool_function_1d_tiled_t A St)
    (function2 : pthreadpool_function_2d_tiled_t A St)
    (argument : A) (s : St) (fuel : nat) :
  pthreadpool_compute_1d_tiled W fuel None function1 argument (SIZE_MAX W) 2 s
  = None
  /\ pthreadpool_compute_2d_tiled W fuel None function2 argument
       (SIZE_MAX W) 1 2 1 s
     = None.
Proof.
  assert (Htrap : forall i,
            (0 <= i <= SIZE_MAX W /\ i mod 2 = 0) ->
            (i <? SIZE_MAX W) = true
            /\ (0 <= wrap W (i + 2) <= SIZE_MAX W /\ wrap W (i + 2) mod 2 = 0)).
  { intros i [Hi Heven]. unfold wrap, SIZE_MAX, SIZE_MODULUS in *.
    destruct W; cbv [size_bits] in *.
    - change (2 ^ 32) with 4294967296 in *.
      split; [apply Z.ltb_lt|]; Z.div_mod_to_equations; lia.
    - change (2 ^ 64) with 18446744073709551616 in *.
      split; [apply Z.ltb_lt|]; Z.div_mod_to_equations; lia. }
  pose proof (SIZE_MAX_nonneg W).
  split.
  - unfold pthreadpool_compute_1d_tiled.
    apply (for_loop_trapped _ _ _ _ Htrap). split; [lia|done].
  - unfold pthreadpool_compute_2d_tiled.
    apply (for_loop_trapped _ _ _ _ Htrap). split; [lia|done].
Qed.

(** C6.  For a divisor [range_j >= 1], the adapter [compute_2d] passes the
    callback the pair (l / range_j, l mod range_j) of the linear index l;
    for l below range_i * range_j this is a pair of the grid; and running
    the adapter on the linear indices 0, 1, ..., range_i * range_j - 1 in
    order makes the same calls, and leaves the same state, as the nested
    loops of [pthreadpool_compute_2d] with an absent pool. *)
Theorem compute_2d_linear_index W (A St : Type)
    (function : pthreadpool_function_2d_t A St) (argument : A)
    (range_i range_j : Z) (s : St) (fuel : nat) :
  is_size_t W range_i ->
  1 <= range_j <= SIZE_MAX W ->
  (Z.to_nat range_i < fuel)%nat ->
  (Z.to_nat range_j < fuel)%nat ->
  let context :=
    {| plain_2d_function := function; plain_2d_argument := argument;
       plain_2d_range_j := {| value := range_j |} |} in
  (forall l s', compute_2d context l s'
                = function argument (l / range_j) (l mod range_j) s')
  /\ (forall l, 0 <= l < range_i * range_j ->
        0 <= l / range_j < range_i /\ 0 <= l mod range_j < range_j)
  /\ (fun l => (l / range_j, l mod range_j)) <$> seqZ 0 (range_i * range_j)
     = row_major range_i range_j
  /\ Some (foldl (fun s' l => compute_2d context l s') s
             (seqZ 0 (range_i * range_j)))
     = pthreadpool_compute_2d W fuel None function argument range_i range_j s.
Proof.
  intros Hi Hj Hfi Hfj context.
  assert (Hlin := row_major_linear range_i range_j (proj1 Hi) (proj1 Hj)).
  split; [done|]. split; [|split; [done|]].
  - intros l Hl. pose proof (Z.mod_pos_bound l range_j ltac:(lia)).
    split; [|done]. split; [apply Z.div_pos; lia|].
    apply Z.div_lt_upper_bound; lia.
  - rewrite compute_2d_fallback by (done || (unfold is_size_t; lia)).
    f_equal. rewrite <- Hlin. by rewrite foldl_fmap.
Qed.

Lemma compute_2d_linear_index_witness :
  Some (foldl (fun calls l =>
                 compute_2d
                   {| plain_2d_function := record_2d; plain_2d_argument := tt;
                      plain_2d_range_j := {| value := 3 |} |} l calls)
          [] (seqZ 0 (2 * 3)))
  = calls_2d SIZEOF_SIZE_T_8 4 None 2 3.
Proof.
  assert (H2 : is_size_t SIZEOF_SIZE_T_8 2) by (unfold is_size_t; vm_compute; intuition discriminate).
  assert (H3 : 1 <= 3 <= SIZE_MAX SIZEOF_SIZE_T_8) by (vm_compute; intuition discriminate).
  assert (Hf2 : (Z.to_nat 2 < 4)%nat) by (vm_compute; lia).
  assert (Hf3 : (Z.to_nat 3 < 4)%nat) by (vm_compute; lia).
  exact (proj2 (proj2 (proj2
    (compute_2d_linear_index SIZEOF_SIZE_T_8 unit (list (Z * Z))
       record_2d tt 2 3 [] 4 H2 H3 Hf2 Hf3)))).
Defined.

(** C7.  [pthreadpool_get_threads_count] returns 1 for an absent pool and
    [threads_count] for a present one, whatever the count; when the pool,
    if present, was built with a positive number of threads, the result
    is at least 1. *)
Theorem get_threads_count_spec (threadpool : option pthreadpool) :
  (threadpool = None -> pthreadpool_get_threads_count threadpool = 1)
  /\ (forall tp, threadpool = Some tp ->
        pthreadpool_get_threads_count threadpool = threads_count tp)
  /\ ((forall tp, threadpool = Some tp -> 1 <= threads_count tp) ->
      1 <= pthreadpool_get_threads_count threadpool).
Proof.
  destruct threadpool as [tp|]; simpl.
  - split; [done|]. split; [by intros ? [= <-]|]. intros Hpos. by apply Hpos.
  - split; [done|]. split; [done|]. intros _. lia.
Qed.

Lemma get_threads_count_spec_witness :
  pthreadpool_get_threads_count (Some example_pool) = 2
  /\ 1 <= pthreadpool_get_threads_count (Some example_pool).
Proof.
  assert (Hpos : forall tp, Some example_pool = Some tp -> 1 <= threads_count tp).
  { intros tp Heq. injection Heq as <-. vm_compute. discriminate. }
  destruct (get_threads_count_spec (Some example_pool)) as (_ & Hsome & Hge).
  split; [exact (Hsome example_pool eq_refl) | exact (Hge Hpos)].
Defined.

(** C8.  With a present pool, each of the four entry points returns
    without invoking the callback: the caller's state is unchanged
    whatever the callback, and no call is recorded, for every pool, range,
    tile and bound. *)
Theorem present_pool_invokes_nothing W (A St : Type) (fuel : nat)
    (tp : pthreadpool) (argument : A) (s : St)
    (f1 : pthreadpool_function_1d_t A St)
    (f1t : pthreadpool_function_1d_tiled_t A St)
    (f2 : pthreadpool_function_2d_t A St)
    (f2t : pthreadpool_function_2d_tiled_t A St)
    (range range_i range_j tile tile_i tile_j : Z) :
  (pthreadpool_compute_1d W fuel (Some tp) f1 argument range s = Some s
   /\ pthreadpool_compute_1d_tiled W fuel (Some tp) f1t argument range tile s
      = Some s
   /\ pthreadpool_compute_2d W fuel (Some tp) f2 argument range_i range_j s
      = Some s
   /\ pthreadpool_compute_2d_tiled W fuel (Some tp) f2t argument
        range_i range_j tile_i tile_j s
      = Some s)
  /\ (calls_1d W fuel (Some tp) range = Some []
      /\ calls_1d_tiled W fuel (Some tp) range tile = Some []
      /\ calls_2d W fuel (Some tp) range_i range_j = Some []
      /\ calls_2d_tiled W fuel (Some tp) range_i range_j tile_i tile_j
         = Some []).
Proof. done. Qed.

(** C10.  For a divisor of at least 1, [divide_round_up] is the ceiling of
    the quotient: the least number of divisors that cover the dividend;
    it is the quotient when the divisor divides the dividend and the
    quotient plus one otherwise. *)
Theorem divide_round_up_ceiling W (dividend divisor : Z) :
  is_size_t W dividend ->
  1 <= divisor <= SIZE_MAX W ->
  (divisor * (divide_round_up W dividend divisor - 1) < dividend
   /\ dividend <= divisor * divide_round_up W dividend divisor)
  /\ (dividend mod divisor = 0 ->
      divide_round_up W dividend divisor = dividend / divisor)
  /\ (dividend mod divisor <> 0 ->
      divide_round_up W dividend divisor = dividend / divisor + 1).
Proof.
  intros Hd Hs.
  destruct (divide_round_up_bounds W dividend divisor Hd Hs) as (Hlo & Hhi & Hq).
  split; [done|]. unfold divide_round_up in *.
  destruct (Z.eqb_spec (dividend mod divisor) 0) as [Hz|Hnz].
  - split; [done|]. intros; contradiction.
  - split; [intros; contradiction|]. intros _.
    pose proof (quotient_succ_le dividend divisor (proj1 Hd) (proj1 Hs) Hnz).
    destruct Hd as [Hd0 Hd1]. apply wrap_small. lia.
Qed.

Lemma divide_round_up_ceiling_witness :
  divide_round_up SIZEOF_SIZE_T_8 10 4 = 10 / 4 + 1
  /\ divide_round_up SIZEOF_SIZE_T_8 8 4 = 8 / 4.
Proof.
  assert (H10 : is_size_t SIZEOF_SIZE_T_8 10) by (unfold is_size_t; vm_compute; intuition discriminate).
  assert (H8 : is_size_t SIZEOF_SIZE_T_8 8) by (unfold is_size_t; vm_compute; intuition discriminate).
  assert (H4 : 1 <= 4 <= SIZE_MAX SIZEOF_SIZE_T_8) by (vm_compute; intuition discriminate).
  split.
  - apply (divide_round_up_ceiling SIZEOF_SIZE_T_8 10 4 H10 H4). vm_compute. discriminate.
  - apply (divide_round_up_ceiling SIZEOF_SIZE_T_8 8 4 H8 H4). vm_compute. reflexivity.
Defined.

(* ===================================================================== *)
(** * Further properties of the source *)

(** Closes a goal on concrete numbers. *)
Ltac concrete := vm_compute; intuition (discriminate || lia).

(** ** [multiply_divide] *)

Lemma wide_small W z :
  0 <= z <= SIZE_MAX W -> z mod 2 ^ (2 * size_bits W) = z.
Proof.
  intros Hz. apply Z.mod_small.
  unfold SIZE_MAX, SIZE_MODULUS in Hz. destruct W; cbv [size_bits] in *.
  - change (2 ^ 32) with 4294967296 in Hz.
    change (2 ^ (2 * 32)) with 18446744073709551616. lia.
  - change (2 ^ 64) with 18446744073709551616 in Hz.
    change (2 ^ (2 * 64)) with 340282366920938463463374607431768211456. lia.
Qed.

Lemma wide_product_small W a b :
  is_size_t W a -> is_size_t W b ->
  (a * b) mod 2 ^ (2 * size_bits W) = a * b.
Proof.
  intros [Ha Ha'] [Hb Hb']. apply Z.mod_small.
  unfold SIZE_MAX, SIZE_MODULUS in *. destruct W; cbv [size_bits] in *.
  - change (2 ^ 32) with 4294967296 in *.
    change (2 ^ (2 * 32)) with 18446744073709551616. nia.
  - change (2 ^ 64) with 18446744073709551616 in *.
    change (2 ^ (2 * 64)) with 340282366920938463463374607431768211456. nia.
Qed.

(** For [size_t] operands and a divisor of at least 1, [multiply_divide]
    returns the product reduced to [size_t], divided by [d]: the widening
    of the multiplication is undone before the division.  The result is
    the quotient of the full product exactly when the product fits
    [size_t]. *)
Theorem multiply_divide_value W (a b d : Z) :
  is_size_t W a -> is_size_t W b -> 1 <= d <= SIZE_MAX W ->
  multiply_divide W a b d = wrap W (a * b) / d
  /\ is_size_t W (multiply_divide W a b d)
  /\ (multiply_divide W a b d = a * b / d <-> a * b <= SIZE_MAX W).
Proof.
  intros Ha Hb Hd.
  pose proof (SIZE_MODULUS_pos W) as HM.
  assert (Hr : 0 <= wrap W (a * b) <= SIZE_MAX W).
  { unfold wrap, SIZE_MAX. pose proof (Z.mod_pos_bound (a * b) _ HM). lia. }
  assert (Hq : 0 <= wrap W (a * b) / d <= SIZE_MAX W).
  { split; [apply Z.div_pos; lia|].
    transitivity (wrap W (a * b)); [|lia].
    apply Z.div_le_upper_bound; nia. }
  assert (Hval : multiply_divide W a b d = wrap W (a * b) / d).
  { unfold multiply_divide.
    rewrite (wide_small W a), (wide_small W b), (wide_small W d)
      by (unfold is_size_t in *; lia).
    rewrite wide_product_small by done.
    rewrite (wide_small W (wrap W (a * b) / d)) by done.
    by apply wrap_small. }
  split; [done|]. split; [by rewrite Hval|].
  rewrite Hval. split.
  - intros Heq. destruct (Z.le_gt_cases (a * b) (SIZE_MAX W)) as [|Hbig]; [done|].
    exfalso. unfold wrap, SIZE_MAX in *.
    pose proof (Z.div_mod (a * b) (SIZE_MODULUS W) ltac:(lia)) as Hdm.
    assert (1 <= a * b / SIZE_MODULUS W)
      by (apply Z.div_le_lower_bound; lia).
    assert (Hge : (a * b) mod SIZE_MODULUS W + 1 * d <= a * b) by nia.
    apply (Z.div_le_mono _ _ d) in Hge; [|lia].
    rewrite Z.div_add in Hge by lia. lia.
  - intros Hfit. destruct Ha, Hb. rewrite wrap_small; [done|nia].
Qed.

Lemma multiply_divide_value_witness :
  multiply_divide SIZEOF_SIZE_T_4 6 7 4 = 6 * 7 / 4.
Proof.
  assert (H6 : is_size_t SIZEOF_SIZE_T_4 6) by (unfold is_size_t; concrete).
  assert (H7 : is_size_t SIZEOF_SIZE_T_4 7) by (unfold is_size_t; concrete).
  assert (H4 : 1 <= 4 <= SIZE_MAX SIZEOF_SIZE_T_4) by concrete.
  apply (multiply_divide_value SIZEOF_SIZE_T_4 6 7 4 H6 H7 H4). concrete.
Defined.

(** ** [divide_round_up] *)

(** [divide_round_up] is the usual [(dividend + divisor - 1) / divisor],
    computed without the overflow of that sum; it never exceeds the
    dividend and is 0 for a dividend of 0 only. *)
Theorem divide_round_up_formula W (dividend divisor : Z) :
  is_size_t W dividend -> 1 <= divisor <= SIZE_MAX W ->
  divide_round_up W dividend divisor = (dividend + divisor - 1) / divisor
  /\ divide_round_up W dividend divisor <= dividend
  /\ (divide_round_up W dividend divisor = 0 <-> dividend = 0).
Proof.
  intros Hd Hs.
  destruct (divide_round_up_bounds W dividend divisor Hd Hs) as (Hlo & Hhi & Hq0 & Hq1).
  split; [|split; [done|nia]].
  apply Z.div_unique_pos with
    (r := dividend + divisor - 1 - divisor * divide_round_up W dividend divisor);
    lia.
Qed.

Lemma divide_round_up_formula_witness :
  divide_round_up SIZEOF_SIZE_T_8 10 4 = (10 + 4 - 1) / 4.
Proof.
  assert (H10 : is_size_t SIZEOF_SIZE_T_8 10) by (unfold is_size_t; concrete).
  assert (H4 : 1 <= 4 <= SIZE_MAX SIZEOF_SIZE_T_8) by concrete.
  exact (proj1 (divide_round_up_formula SIZEOF_SIZE_T_8 10 4 H10 H4)).
Defined.

(** [divide_round_up] grows with the dividend and shrinks with the
    divisor: a larger range needs no fewer tiles, larger tiles no more. *)
Theorem divide_round_up_monotone W (dividend dividend' divisor divisor' : Z) :
  is_size_t W dividend -> is_size_t W dividend' ->
  1 <= divisor <= SIZE_MAX W -> 1 <= divisor' <= SIZE_MAX W ->
  dividend <= dividend' -> divisor' <= divisor ->
  divide_round_up W dividend divisor <= divide_round_up W dividend' divisor'.
Proof.
  intros Hd Hd' Hs Hs' Hle Hsle.
  destruct (divide_round_up_bounds W dividend divisor Hd Hs) as (Hlo & Hhi & Hq0 & _).
  destruct (divide_round_up_bounds W dividend' divisor' Hd' Hs') as (Hlo' & Hhi' & Hq0' & _).
  destruct (Z.le_gt_cases (divide_round_up W dividend divisor)
              (divide_round_up W dividend' divisor')) as [|Hgt]; [done|].
  exfalso. nia.
Qed.

Lemma divide_round_up_monotone_witness :
  divide_round_up SIZEOF_SIZE_T_8 9 4 <= divide_round_up SIZEOF_SIZE_T_8 10 3.
Proof.
  apply divide_round_up_monotone; unfold is_size_t; concrete.
Defined.

(** ** Loops: invariants and bodies that agree *)

Section LoopInvariants.
Context {St : Type}.

(** What holds of the index and of the state when the loop starts, and is
    kept by every iteration, holds of the state when the loop exits. *)
Lemma for_loop_invariant (Q : Z -> Prop) (P : St -> Prop)
    (cond : Z -> bool) (incr : Z -> Z) (body : Z -> St -> option St) :
  (forall j, Q j -> cond j = true -> Q (incr j)) ->
  (forall j s1 s2, Q j -> cond j = true -> P s1 -> body j s1 = Some s2 -> P s2) ->
  forall fuel i s s',
    Q i -> P s -> for_loop fuel cond incr body i s = Some s' -> P s'.
Proof.
  intros Hindex Hbody fuel.
  induction fuel as [|fuel IH]; intros i s s' Hi Hs; [done|].
  simpl. destruct (cond i) eqn:Hc; [|by intros [= <-]].
  destruct (body i s) as [s1|] eqn:Hb; [|done].
  apply IH; eauto.
Qed.

(** Two bodies that agree at every index the loop can reach give the same
    loop, for every bound. *)
Lemma for_loop_ext (Q : Z -> Prop) (cond : Z -> bool) (incr : Z -> Z)
    (body body' : Z -> St -> option St) :
  (forall j, Q j -> cond j = true -> Q (incr j)) ->
  (forall j s, Q j -> cond j = true -> body j s = body' j s) ->
  forall fuel i s,
    Q i ->
    for_loop fuel cond incr body i s = for_loop fuel cond incr body' i s.
Proof.
  intros Hindex Hbody fuel.
  induction fuel as [|fuel IH]; intros i s Hi; [done|].
  simpl. destruct (cond i) eqn:Hc; [|done].
  rewrite (Hbody i s Hi Hc). destruct (body' i s); [|done].
  apply IH; auto.
Qed.
End LoopInvariants.

Lemma wrap_is_size_t W z : is_size_t W (wrap W z).
Proof.
  unfold is_size_t, wrap, SIZE_MAX.
  pose proof (Z.mod_pos_bound z _ (SIZE_MODULUS_pos W)). lia.
Qed.

Lemma row_major_empty_columns (range_i range_j : Z) :
  range_j <= 0 -> row_major range_i range_j = [].
Proof.
  intros Hj. unfold row_major. rewrite (seqZ_nil 0 range_j) by done.
  induction (seqZ 0 range_i) as [|i l IH]; [done|].
  by rewrite bind_cons, IH.
Qed.

(** ** Empty ranges *)

(** With an absent pool and an empty range no entry point invokes the
    callback, whatever the other range and the tiles, a tile of 0
    included; only a plain 2-D grid with no column still runs its outer
    loop over the rows. *)
Theorem fallbacks_empty_range W (A St : Type)
    (f1t : pthreadpool_function_1d_tiled_t A St)
    (f2 : pthreadpool_function_2d_t A St)
    (f2t : pthreadpool_function_2d_tiled_t A St)
    (argument : A) (s : St) (fuel : nat)
    (range_i range_j tile tile_i tile_j : Z) :
  (0 < fuel)%nat ->
  pthreadpool_compute_1d_tiled W fuel None f1t argument 0 tile s = Some s
  /\ pthreadpool_compute_2d W fuel None f2 argument 0 range_j s = Some s
  /\ pthreadpool_compute_2d_tiled W fuel None f2t argument
       0 range_j tile_i tile_j s = Some s
  /\ (is_size_t W range_i -> (Z.to_nat range_i < fuel)%nat ->
      pthreadpool_compute_2d W fuel None f2 argument range_i 0 s = Some s).
Proof.
  intros Hfuel. destruct fuel as [|fuel]; [lia|].
  repeat split; try done.
  intros Hi Hfi.
  rewrite compute_2d_fallback; try done.
  all: try (split; [done|apply SIZE_MAX_nonneg]).
  all: try (simpl; lia).
  by rewrite row_major_empty_columns.
Qed.

Lemma fallbacks_empty_range_witness :
  calls_1d_tiled SIZEOF_SIZE_T_8 1 None 0 0 = Some []
  /\ calls_2d SIZEOF_SIZE_T_8 4 None 3 0 = Some [].
Proof.
  assert (H1 : (0 < 1)%nat) by lia.
  assert (H4 : (0 < 4)%nat) by lia.
  assert (H3 : is_size_t SIZEOF_SIZE_T_8 3) by (unfold is_size_t; concrete).
  assert (Hf : (Z.to_nat 3 < 4)%nat) by concrete.
  split.
  - exact (proj1 (fallbacks_empty_range SIZEOF_SIZE_T_8 unit (list (Z * Z))
                    record_1d_tiled (fun _ _ _ c => c) (fun _ _ _ _ _ c => c)
                    tt [] 1 0 0 0 0 0 H1)).
  - exact (proj2 (proj2 (proj2
             (fallbacks_empty_range SIZEOF_SIZE_T_8 unit (list (Z * Z))
                (fun _ _ _ c => c) record_2d (fun _ _ _ _ _ c => c)
                tt [] 4 3 0 0 0 0 H4))) H3 Hf).
Defined.

(** ** Tiles of one item, and tiles that hold the whole range *)

(** With tiles of one item the 1-D tiled fallback is the plain 1-D
    fallback on the same range, every call being passed a width of 1; the
    two agree for every bound on the iterations. *)
Theorem tiled_1d_unit_tile W (A St : Type)
    (function : pthreadpool_function_1d_tiled_t A St) (argument : A)
    (range : Z) (s : St) (fuel : nat) :
  is_size_t W range ->
  pthreadpool_compute_1d_tiled W fuel None function argument range 1 s
  = pthreadpool_compute_1d W fuel None
      (fun a i s' => function a i 1 s') argument range s.
Proof.
  intros [Hr0 Hr1]. unfold pthreadpool_compute_1d_tiled, pthreadpool_compute_1d.
  apply (for_loop_ext (is_size_t W)).
  - intros j _ _. apply wrap_is_size_t.
  - intros j s' [Hj0 Hj1] Hc. apply Z.ltb_lt in Hc.
    rewrite wrap_small, min_spec by lia. do 2 f_equal. lia.
  - split; [done|apply SIZE_MAX_nonneg].
Qed.

Lemma tiled_1d_unit_tile_witness :
  calls_1d_tiled SIZEOF_SIZE_T_8 4 None 3 1 = Some [(0, 1); (1, 1); (2, 1)].
Proof.
  assert (H3 : is_size_t SIZEOF_SIZE_T_8 3) by (unfold is_size_t; concrete).
  unfold calls_1d_tiled.
  rewrite (tiled_1d_unit_tile SIZEOF_SIZE_T_8 unit (list (Z * Z))
             record_1d_tiled tt 3 [] 4 H3).
  reflexivity.
Defined.

(** With 1 by 1 tiles the 2-D tiled fallback is the plain 2-D fallback on
    the same grid, every call being passed widths of 1. *)
Theorem tiled_2d_unit_tiles W (A St : Type)
    (function : pthreadpool_function_2d_tiled_t A St) (argument : A)
    (range_i range_j : Z) (s : St) (fuel : nat) :
  is_size_t W range_i -> is_size_t W range_j ->
  pthreadpool_compute_2d_tiled W fuel None function argument
    range_i range_j 1 1 s
  = pthreadpool_compute_2d W fuel None
      (fun a i j s' => function a i j 1 1 s') argument range_i range_j s.
Proof.
  intros [Hi0 Hi1] [Hj0 Hj1].
  unfold pthreadpool_compute_2d_tiled, pthreadpool_compute_2d.
  assert (Hzero : is_size_t W 0) by (split; [done|apply SIZE_MAX_nonneg]).
  apply (for_loop_ext (is_size_t W)); [|
    |done].
  - intros j _ _. apply wrap_is_size_t.
  - intros i s' [Hi0' Hi1'] Hci. apply Z.ltb_lt in Hci.
    apply (for_loop_ext (is_size_t W)); [| |done].
    + intros j _ _. apply wrap_is_size_t.
    + intros j s'' [Hj0' Hj1'] Hcj. apply Z.ltb_lt in Hcj.
      rewrite !wrap_small, !min_spec by lia. do 2 f_equal; lia.
Qed.

Lemma tiled_2d_unit_tiles_witness :
  calls_2d_tiled SIZEOF_SIZE_T_8 3 None 2 2 1 1
  = Some [(0, 0, 1, 1); (0, 1, 1, 1); (1, 0, 1, 1); (1, 1, 1, 1)].
Proof.
  assert (H2 : is_size_t SIZEOF_SIZE_T_8 2) by (unfold is_size_t; concrete).
  unfold calls_2d_tiled.
  rewrite (tiled_2d_unit_tiles SIZEOF_SIZE_T_8 unit (list (Z * Z * Z * Z))
             record_2d_tiled tt 2 2 [] 3 H2 H2).
  reflexivity.
Defined.

(** A tile that holds the whole non-empty range gives one call, on the
    whole range: offset 0 and the range as its width. *)
Theorem tiled_1d_single_chunk W (A St : Type)
    (function : pthreadpool_function_1d_tiled_t A St) (argument : A)
    (range tile : Z) (s : St) (fuel : nat) :
  1 <= range -> range <= tile -> tile <= SIZE_MAX W ->
  (2 <= fuel)%nat ->
  pthreadpool_compute_1d_tiled W fuel None function argument range tile s
  = Some (function argument 0 range s).
Proof.
  intros Hr Hrt Ht Hfuel.
  destruct fuel as [|[|fuel]]; [lia|lia|].
  unfold pthreadpool_compute_1d_tiled. cbn [for_loop].
  rewrite (proj2 (Z.ltb_lt 0 range)) by lia.
  rewrite Z.sub_0_r, Z.add_0_l.
  rewrite (wrap_small W range), (wrap_small W tile) by lia.
  rewrite (proj2 (Z.ltb_ge tile range)) by lia.
  rewrite min_spec, Z.min_l by lia. done.
Qed.

Lemma tiled_1d_single_chunk_witness :
  calls_1d_tiled SIZEOF_SIZE_T_4 2 None 5 8 = Some [(0, 5)].
Proof.
  apply (tiled_1d_single_chunk SIZEOF_SIZE_T_4 unit (list (Z * Z))
           record_1d_tiled tt 5 8 [] 2); concrete.
Defined.

(** ** What the tiled fallbacks pass to the callback *)

Lemma record_chunk_in_range W (range tile j : Z) :
  is_size_t W range -> is_size_t W j -> j < range ->
  chunk_in_range range tile (j, min (wrap W (range - j)) tile).
Proof.
  intros [Hr0 Hr1] [Hj0 Hj1] Hlt. unfold chunk_in_range. simpl.
  rewrite wrap_small, min_spec by lia. lia.
Qed.

(** Whatever the range and the tile, every call that the 1-D tiled
    fallback has made when it returns is on a chunk within the range:
    its offset is below the range, its width is the tile clipped to what
    is left, and it does not reach beyond the range.  This holds also
    when the loop index has wrapped around. *)
Theorem tiled_1d_calls_in_range W (range tile : Z) (fuel : nat)
    (calls : list (Z * Z)) :
  is_size_t W range ->
  calls_1d_tiled W fuel None range tile = Some calls ->
  Forall (chunk_in_range range tile) calls.
Proof.
  intros Hr. unfold calls_1d_tiled, pthreadpool_compute_1d_tiled.
  apply (for_loop_invariant (is_size_t W) (Forall (chunk_in_range range tile))).
  - intros j _ _. apply wrap_is_size_t.
  - intros j calls1 calls2 Hj Hc Hcalls [= <-]. apply Z.ltb_lt in Hc.
    unfold record_1d_tiled. apply Forall_app. split; [done|].
    apply Forall_singleton. by apply (record_chunk_in_range W).
  - split; [done|apply SIZE_MAX_nonneg].
  - constructor.
Qed.

Lemma tiled_1d_calls_in_range_witness :
  Forall (chunk_in_range (3 * 2 ^ 62) (5 * 2 ^ 61))
    [ (0, 5 * 2 ^ 61); (5 * 2 ^ 61, 2 ^ 61); (2 ^ 62, 2 ^ 63) ].
Proof.
  apply (tiled_1d_calls_in_range SIZEOF_SIZE_T_8 (3 * 2 ^ 62) (5 * 2 ^ 61) 4).
  - unfold is_size_t. concrete.
  - vm_compute. reflexivity.
Defined.

(** Likewise every call that the 2-D tiled fallback has made when it
    returns is on a tile within the grid, in both dimensions. *)
Theorem tiled_2d_calls_in_range W (range_i range_j tile_i tile_j : Z)
    (fuel : nat) (calls : list (Z * Z * Z * Z)) :
  is_size_t W range_i -> is_size_t W range_j ->
  calls_2d_tiled W fuel None range_i range_j tile_i tile_j = Some calls ->
  Forall (tile_in_range range_i range_j tile_i tile_j) calls.
Proof.
  intros Hri Hrj. unfold calls_2d_tiled, pthreadpool_compute_2d_tiled.
  assert (Hzero : is_size_t W 0) by (split; [done|apply SIZE_MAX_nonneg]).
  apply (for_loop_invariant (is_size_t W)
           (Forall (tile_in_range range_i range_j tile_i tile_j)));
    [| |done|constructor].
  - intros i _ _. apply wrap_is_size_t.
  - intros i calls1 calls2 Hi Hci Hcalls. apply Z.ltb_lt in Hci.
    apply (for_loop_invariant (is_size_t W)
             (Forall (tile_in_range range_i range_j tile_i tile_j)));
      [| |done|done].
    + intros j _ _. apply wrap_is_size_t.
    + intros j calls3 calls4 Hj Hcj Hcalls3 [= <-]. apply Z.ltb_lt in Hcj.
      unfold record_2d_tiled. apply Forall_app. split; [done|].
      apply Forall_singleton. split; by apply (record_chunk_in_range W).
Qed.

Lemma tiled_2d_calls_in_range_witness :
  Forall (tile_in_range 3 5 2 4)
    [ (0, 0, 2, 4); (0, 4, 2, 1); (2, 0, 1, 4); (2, 4, 1, 1) ].
Proof.
  apply (tiled_2d_calls_in_range SIZEOF_SIZE_T_8 3 5 2 4 3).
  - unfold is_size_t. concrete.
  - unfold is_size_t. concrete.
  - vm_compute. reflexivity.
Defined.

(** ** The tiles make up the range *)

Lemma bind_perm_ext {A B : Type} (f g : A -> list B) (l : list A) :
  (forall x, f x ≡ₚ g x) -> l ≫= f ≡ₚ l ≫= g.
Proof.
  intros Hfg. induction l as [|x l IH]; [done|].
  by rewrite !bind_cons, IH, Hfg.
Qed.

Lemma bind_app_perm {A B : Type} (g h : A -> list B) (l : list A) :
  l ≫= (fun x => g x ++ h x) ≡ₚ (l ≫= g) ++ (l ≫= h).
Proof.
  induction l as [|x l IH]; [done|].
  rewrite !bind_cons, IH, <- !app_assoc. f_equiv.
  rewrite !app_assoc. f_equiv. apply Permutation_app_comm.
Qed.

Lemma bind_no_items {A B : Type} (l : list A) :
  l ≫= (fun _ => @nil B) = [].
Proof. induction l as [|x l IH]; [done|]. by rewrite bind_cons, IH. Qed.

Lemma bind_swap {A B C : Type} (f : A -> B -> list C)
    (l1 : list A) (l2 : list B) :
  l1 ≫= (fun x => l2 ≫= f x) ≡ₚ l2 ≫= (fun y => l1 ≫= (fun x => f x y)).
Proof.
  induction l1 as [|x l1 IH].
  - change ([] ≡ₚ l2 ≫= (fun _ : B => @nil C)). by rewrite bind_no_items.
  - rewrite bind_cons, IH.
    rewrite <- (bind_app_perm (f x) (fun y => l1 ≫= (fun x' => f x' y))).
    done.
Qed.

Lemma bind_assoc {A B C : Type} (f : A -> list B) (g : B -> list C)
    (l : list A) :
  (l ≫= f) ≫= g = l ≫= (fun x => f x ≫= g).
Proof.
  induction l as [|x l IH]; [done|].
  by rewrite !bind_cons, bind_app, IH.
Qed.

Lemma fmap_bind_out {A B C : Type} (f : B -> C) (g : A -> list B)
    (l : list A) :
  f <$> (l ≫= g) = l ≫= (fun x => f <$> g x).
Proof.
  induction l as [|x l IH]; [done|].
  by rewrite !bind_cons, fmap_app, IH.
Qed.

(** The clipped tiles at the multiples of the tile size make up the
    range, in order. *)
Lemma tile_offsets_cover W (range tile : Z) :
  is_size_t W range -> 1 <= tile <= SIZE_MAX W ->
  seqZ 0 (divide_round_up W range tile)
    ≫= (fun k => seqZ (k * tile) (Z.min tile (range - k * tile)))
  = seqZ 0 range.
Proof.
  intros Hr Ht.
  destruct (divide_round_up_bounds W range tile Hr Ht) as (Hlo & Hhi & Hq0 & _).
  assert (Hprefix : forall n : nat,
            Z.of_nat n <= divide_round_up W range tile ->
            seqZ 0 (Z.of_nat n)
              ≫= (fun k => seqZ (k * tile) (Z.min tile (range - k * tile)))
            = seqZ 0 (Z.min (Z.of_nat n * tile) range)).
  { induction n as [|n IH]; intros Hn.
    - destruct Hr. by rewrite !seqZ_nil by lia.
    - rewrite seqZ_S, bind_app, IH, bind_singleton, Z.add_0_l by lia.
      destruct (tile_offsets_in_range W range tile (Z.of_nat n) Hr Ht ltac:(lia)).
      rewrite (Z.min_l (Z.of_nat n * tile)) by lia.
      rewrite <- seqZ_app by lia. f_equal. lia. }
  rewrite <- (Z2Nat.id (divide_round_up W range tile)) at 1 by done.
  rewrite Hprefix by lia. f_equal. lia.
Qed.

(** When the loop index does not wrap around, the chunks of the 1-D tiled
    fallback are the clipped tiles at the multiples of the tile size,
    [divide_round_up range tile] of them, and their items are the items
    of the range, each once and in order. *)
Theorem tiled_1d_partition W (range tile : Z) (fuel : nat) :
  is_size_t W range ->
  1 <= tile <= SIZE_MAX W ->
  divide_round_up W range tile * tile <= SIZE_MAX W ->
  (Z.to_nat (divide_round_up W range tile) < fuel)%nat ->
  exists calls,
    calls_1d_tiled W fuel None range tile = Some calls
    /\ calls ≫= chunk_items = seqZ 0 range
    /\ length calls = Z.to_nat (divide_round_up W range tile)
    /\ Forall (fun chunk => chunk.1 mod tile = 0 /\ 1 <= chunk.2 <= tile) calls.
Proof.
  intros Hr Ht Hfit Hfuel. eexists. split; [by apply tiled_1d_chunks|].
  split; [|split].
  - rewrite list_fmap_bind. by apply tile_offsets_cover.
  - by rewrite length_fmap, length_seqZ.
  - apply Forall_fmap, Forall_forall. intros k Hk. apply elem_of_seqZ in Hk.
    destruct (tile_offsets_in_range W range tile k Hr Ht ltac:(lia)).
    simpl. rewrite Z.mod_mul by lia. lia.
Qed.

Lemma tiled_1d_partition_witness :
  exists calls,
    calls_1d_tiled SIZEOF_SIZE_T_8 4 None 10 4 = Some calls
    /\ calls ≫= chunk_items = seqZ 0 10.
Proof.
  destruct (tiled_1d_partition SIZEOF_SIZE_T_8 10 4 4) as (calls & Hc & Hitems & _).
  - unfold is_size_t. concrete.
  - concrete.
  - concrete.
  - concrete.
  - exists calls. split; [exact Hc | exact Hitems].
Defined.

Lemma length_row_major (range_i range_j : Z) :
  length (row_major range_i range_j)
  = (Z.to_nat range_i * Z.to_nat range_j)%nat.
Proof.
  unfold row_major. rewrite <- (length_seqZ 0 range_i).
  induction (seqZ 0 range_i) as [|i l IH]; [done|].
  rewrite bind_cons, length_app, IH, length_fmap, length_seqZ. simpl. lia.
Qed.

(** When neither loop index wraps around, the tiles of the 2-D tiled
    fallback are as many as the grid of tiles has cells, and the cells
    they cover are those of the range_i by range_j grid, each covered
    once. *)
Theorem tiled_2d_partition W (range_i range_j tile_i tile_j : Z) (fuel : nat) :
  is_size_t W range_i -> is_size_t W range_j ->
  1 <= tile_i <= SIZE_MAX W -> 1 <= tile_j <= SIZE_MAX W ->
  divide_round_up W range_i tile_i * tile_i <= SIZE_MAX W ->
  divide_round_up W range_j tile_j * tile_j <= SIZE_MAX W ->
  (Z.to_nat (divide_round_up W range_i tile_i) < fuel)%nat ->
  (Z.to_nat (divide_round_up W range_j tile_j) < fuel)%nat ->
  exists calls,
    calls_2d_tiled W fuel None range_i range_j tile_i tile_j = Some calls
    /\ calls ≫= tile_cells ≡ₚ row_major range_i range_j
    /\ length calls
       = (Z.to_nat (divide_round_up W range_i tile_i)
          * Z.to_nat (divide_round_up W range_j tile_j))%nat.
Proof.
  intros Hri Hrj Hti Htj Hfiti Hfitj Hfi Hfj.
  eexists. split; [by apply tiled_2d_chunks|]. split.
  - set (I := fun k => seqZ (k * tile_i) (Z.min tile_i (range_i - k * tile_i))).
    set (J := fun l => seqZ (l * tile_j) (Z.min tile_j (range_j - l * tile_j))).
    rewrite list_fmap_bind. unfold row_major at 1. rewrite bind_assoc.
    transitivity
      (seqZ 0 (divide_round_up W range_i tile_i)
         ≫= (fun k => I k ≫= (fun i => pair i <$> seqZ 0 range_j))).
    + apply bind_perm_ext. intros k. rewrite list_fmap_bind.
      transitivity
        (seqZ 0 (divide_round_up W range_j tile_j)
           ≫= (fun l => I k ≫= (fun i => pair i <$> J l))); [done|].
      rewrite bind_swap. apply bind_perm_ext. intros i.
      rewrite <- fmap_bind_out. unfold J. by rewrite tile_offsets_cover.
    + rewrite <- bind_assoc. unfold I. by rewrite tile_offsets_cover.
  - by rewrite length_fmap, length_row_major.
Qed.

Lemma tiled_2d_partition_witness :
  exists calls,
    calls_2d_tiled SIZEOF_SIZE_T_8 3 None 3 5 2 4 = Some calls
    /\ calls ≫= tile_cells ≡ₚ row_major 3 5.
Proof.
  destruct (tiled_2d_partition SIZEOF_SIZE_T_8 3 5 2 4 3)
    as (calls & Hc & Hcells & _).
  - unfold is_size_t. concrete.
  - unfold is_size_t. concrete.
  - concrete.
  - concrete.
  - concrete.
  - concrete.
  - concrete.
  - concrete.
  - exists calls. split; [exact Hc | exact Hcells].
Defined.

(** ** The fallbacks as 1-D loops over the adapters *)

(** When the loop index does not wrap around, the 1-D tiled fallback does
    what [pthreadpool_compute_1d] does with the adapter [compute_1d_tiled]
    as its callback, the context as its argument and the number of tiles
    as its range. *)
Theorem tiled_1d_as_compute_1d W (A St : Type)
    (function : pthreadpool_function_1d_tiled_t A St) (argument : A)
    (range tile : Z) (s : St) (fuel : nat) :
  is_size_t W range ->
  1 <= tile <= SIZE_MAX W ->
  divide_round_up W range tile * tile <= SIZE_MAX W ->
  (Z.to_nat (divide_round_up W range tile) < fuel)%nat ->
  pthreadpool_compute_1d_tiled W fuel None function argument range tile s
  = pthreadpool_compute_1d W fuel None (compute_1d_tiled W)
      {| tiled_1d_function := function; tiled_1d_argument := argument;
         tiled_1d_range := range; tiled_1d_tile := tile |}
      (divide_round_up W range tile) s.
Proof.
  intros Hr Ht Hfit Hfuel.
  destruct (divide_round_up_bounds W range tile Hr Ht) as (_ & _ & Hq0 & Hq1).
  rewrite tiled_1d_fallback_adapter by done.
  rewrite compute_1d_fallback; [done| |done].
  destruct Hr. split; lia.
Qed.

Lemma tiled_1d_as_compute_1d_witness :
  calls_1d_tiled SIZEOF_SIZE_T_8 4 None 10 4
  = pthreadpool_compute_1d SIZEOF_SIZE_T_8 4 None
      (compute_1d_tiled SIZEOF_SIZE_T_8)
      {| tiled_1d_function := record_1d_tiled; tiled_1d_argument := tt;
         tiled_1d_range := 10; tiled_1d_tile := 4 |}
      (divide_round_up SIZEOF_SIZE_T_8 10 4) [].
Proof.
  apply (tiled_1d_as_compute_1d SIZEOF_SIZE_T_8 unit (list (Z * Z))
           record_1d_tiled tt 10 4 [] 4); unfold is_size_t; concrete.
Defined.

(** When the number of cells fits [size_t], the plain 2-D fallback does
    what [pthreadpool_compute_1d] does with the adapter [compute_2d] as
    its callback and the number of cells as its range. *)
Theorem compute_2d_as_compute_1d W (A St : Type)
    (function : pthreadpool_function_2d_t A St) (argument : A)
    (range_i range_j : Z) (s : St) (fuel : nat) :
  is_size_t W range_i -> is_size_t W range_j ->
  range_i * range_j <= SIZE_MAX W ->
  (Z.to_nat range_i < fuel)%nat ->
  (Z.to_nat range_j < fuel)%nat ->
  (Z.to_nat (range_i * range_j) < fuel)%nat ->
  pthreadpool_compute_2d W fuel None function argument range_i range_j s
  = pthreadpool_compute_1d W fuel None compute_2d
      {| plain_2d_function := function; plain_2d_argument := argument;
         plain_2d_range_j := {| value := range_j |} |}
      (range_i * range_j) s.
Proof.
  intros Hi Hj Hfit Hfi Hfj Hfij.
  rewrite compute_2d_fallback by done.
  rewrite compute_1d_fallback; [|destruct Hi, Hj; split; nia|done].
  f_equal. destruct (Z.eq_dec range_j 0) as [->|Hnz].
  - by rewrite row_major_empty_columns, Z.mul_0_r.
  - rewrite <- (row_major_linear range_i range_j) by (destruct Hi, Hj; lia).
    by rewrite foldl_fmap.
Qed.

Lemma compute_2d_as_compute_1d_witness :
  calls_2d SIZEOF_SIZE_T_8 7 None 2 3
  = pthreadpool_compute_1d SIZEOF_SIZE_T_8 7 None compute_2d
      {| plain_2d_function := record_2d; plain_2d_argument := tt;
         plain_2d_range_j := {| value := 3 |} |}
      (2 * 3) [].
Proof.
  apply (compute_2d_as_compute_1d SIZEOF_SIZE_T_8 unit (list (Z * Z))
           record_2d tt 2 3 [] 7); unfold is_size_t; concrete.
Defined.

(** When neither loop index wraps around and the number of tiles fits
    [size_t], the 2-D tiled fallback does what [pthreadpool_compute_1d]
    does with the adapter [compute_2d_tiled] as its callback and the
    number of tiles as its range, the context holding the number of tiles
    in a row as its divisor. *)
Theorem tiled_2d_as_compute_1d W (A St : Type)
    (function : pthreadpool_function_2d_tiled_t A St) (argument : A)
    (range_i range_j tile_i tile_j : Z) (s : St) (fuel : nat) :
  is_size_t W range_i -> is_size_t W range_j ->
  1 <= tile_i <= SIZE_MAX W -> 1 <= tile_j <= SIZE_MAX W ->
  divide_round_up W range_i tile_i * tile_i <= SIZE_MAX W ->
  divide_round_up W range_j tile_j * tile_j <= SIZE_MAX W ->
  divide_round_up W range_i tile_i * divide_round_up W range_j tile_j
    <= SIZE_MAX W ->
  (Z.to_nat (divide_round_up W range_i tile_i) < fuel)%nat ->
  (Z.to_nat (divide_round_up W range_j tile_j) < fuel)%nat ->
  (Z.to_nat (divide_round_up W range_i tile_i
             * divide_round_up W range_j tile_j) < fuel)%nat ->
  pthreadpool_compute_2d_tiled W fuel None function argument
    range_i range_j tile_i tile_j s
  = pthreadpool_compute_1d W fuel None (compute_2d_tiled W)
      {| tiled_2d_function := function; tiled_2d_argument := argument;
         tiled_2d_tile_range_j :=
           {| value := divide_round_up W range_j tile_j |};
         tiled_2d_range_i := range_i; tiled_2d_range_j := range_j;
         tiled_2d_tile_i := tile_i; tiled_2d_tile_j := tile_j |}
      (divide_round_up W range_i tile_i * divide_round_up W range_j tile_j) s.
Proof.
  intros Hri Hrj Hti Htj Hfiti Hfitj Hfit Hfi Hfj Hfij.
  destruct (divide_round_up_bounds W range_i tile_i Hri Hti) as (_ & _ & Hqi & _).
  destruct (divide_round_up_bounds W range_j tile_j Hrj Htj) as (_ & _ & Hqj & _).
  rewrite compute_2d_tiled_fallback by done.
  rewrite compute_1d_fallback; [|split; nia|done].
  f_equal.
  rewrite (foldl_ext_in _
             (fun s' l =>
                function argument
                  (l / divide_round_up W range_j tile_j * tile_i)
                  (l mod divide_round_up W range_j tile_j * tile_j)
                  (Z.min tile_i
                     (range_i - l / divide_round_up W range_j tile_j * tile_i))
                  (Z.min tile_j
                     (range_j - l mod divide_round_up W range_j tile_j * tile_j))
                  s')
             (seqZ 0 _)).
  - destruct (Z.eq_dec (divide_round_up W range_j tile_j) 0) as [Hz|Hnz].
    + by rewrite Hz, row_major_empty_columns, Z.mul_0_r.
    + rewrite <- (row_major_linear (divide_round_up W range_i tile_i)
                    (divide_round_up W range_j tile_j)) by lia.
      by rewrite foldl_fmap.
  - intros s' l Hl. apply elem_of_seqZ in Hl.
    by apply compute_2d_tiled_chunk; [..|lia].
Qed.

Lemma tiled_2d_as_compute_1d_witness :
  calls_2d_tiled SIZEOF_SIZE_T_8 5 None 3 5 2 4
  = pthreadpool_compute_1d SIZEOF_SIZE_T_8 5 None
      (compute_2d_tiled SIZEOF_SIZE_T_8)
      {| tiled_2d_function := record_2d_tiled; tiled_2d_argument := tt;
         tiled_2d_tile_range_j := {| value := divide_round_up SIZEOF_SIZE_T_8 5 4 |};
         tiled_2d_range_i := 3; tiled_2d_range_j := 5;
         tiled_2d_tile_i := 2; tiled_2d_tile_j := 4 |}
      (divide_round_up SIZEOF_SIZE_T_8 3 2 * divide_round_up SIZEOF_SIZE_T_8 5 4)
      [].
Proof.
  apply (tiled_2d_as_compute_1d SIZEOF_SIZE_T_8 unit (list (Z * Z * Z * Z))
           record_2d_tiled tt 3 5 2 4 [] 5); unfold is_size_t; concrete.
Defined.

(** ** The adapters on their own *)

(** For every range and tile, wrap-around or not in the fallback loop, the
    adapter [compute_1d_tiled] run on a tile index below the number of
    tiles makes one call, on the chunk at that multiple of the tile, and
    the chunk lies within the range. *)
Theorem compute_1d_tiled_in_range W (range tile k : Z) (calls : list (Z * Z)) :
  is_size_t W range ->
  1 <= tile <= SIZE_MAX W ->
  0 <= k < divide_round_up W range tile ->
  exists chunk,
    compute_1d_tiled W
      {| tiled_1d_function := record_1d_tiled; tiled_1d_argument := tt;
         tiled_1d_range := range; tiled_1d_tile := tile |} k calls
    = calls ++ [chunk]
    /\ chunk.1 = k * tile
    /\ chunk_in_range range tile chunk.
Proof.
  intros Hr Ht Hk.
  destruct (tile_offsets_in_range W range tile k Hr Ht Hk).
  exists (k * tile, Z.min tile (range - k * tile)).
  split; [by rewrite compute_1d_tiled_chunk|].
  split; [done|]. unfold chunk_in_range. simpl. lia.
Qed.

Lemma compute_1d_tiled_in_range_witness :
  exists chunk,
    compute_1d_tiled SIZEOF_SIZE_T_8
      {| tiled_1d_function := record_1d_tiled; tiled_1d_argument := tt;
         tiled_1d_range := 10; tiled_1d_tile := 4 |} 2 []
    = [] ++ [chunk]
    /\ chunk.1 = 2 * 4
    /\ chunk_in_range 10 4 chunk.
Proof.
  apply (compute_1d_tiled_in_range SIZEOF_SIZE_T_8 10 4 2 []);
    unfold is_size_t; concrete.
Defined.

(** Likewise the adapter [compute_2d_tiled], whose context holds the
    number of tiles in a row as its divisor, run on a linear index below
    the number of tiles makes one call, on the tile in row
    [l / tiles per row] and column [l mod tiles per row] of the grid of
    tiles, and the tile lies within the grid. *)
Theorem compute_2d_tiled_in_range W (range_i range_j tile_i tile_j l : Z)
    (calls : list (Z * Z * Z * Z)) :
  is_size_t W range_i -> is_size_t W range_j ->
  1 <= tile_i <= SIZE_MAX W -> 1 <= tile_j <= SIZE_MAX W ->
  0 <= l < divide_round_up W range_i tile_i * divide_round_up W range_j tile_j ->
  exists tile,
    compute_2d_tiled W
      {| tiled_2d_function := record_2d_tiled; tiled_2d_argument := tt;
         tiled_2d_tile_range_j :=
           {| value := divide_round_up W range_j tile_j |};
         tiled_2d_range_i := range_i; tiled_2d_range_j := range_j;
         tiled_2d_tile_i := tile_i; tiled_2d_tile_j := tile_j |} l calls
    = calls ++ [tile]
    /\ tile.1.1.1 = l / divide_round_up W range_j tile_j * tile_i
    /\ tile.1.1.2 = l mod divide_round_up W range_j tile_j * tile_j
    /\ tile_in_range range_i range_j tile_i tile_j tile.
Proof.
  intros Hri Hrj Hti Htj Hl.
  set (q := divide_round_up W range_j tile_j) in *.
  destruct (divide_round_up_bounds W range_j tile_j Hrj Htj) as (_ & _ & Hn & _).
  fold q in Hn.
  assert (0 < q) as Hpos.
  { destruct (Z.eq_dec q 0) as [Hz|Hnz]; [|lia].
    rewrite Hz, Z.mul_0_r in Hl. lia. }
  pose proof (Z.mod_pos_bound l q Hpos) as Hrem.
  assert (0 <= l / q < divide_round_up W range_i tile_i) as Hquo.
  { split; [apply Z.div_pos; lia|]. apply Z.div_lt_upper_bound; [done|]. lia. }
  destruct (tile_offsets_in_range W range_i tile_i _ Hri Hti Hquo).
  destruct (tile_offsets_in_range W range_j tile_j _ Hrj Htj Hrem).
  exists (l / q * tile_i, l mod q * tile_j,
          Z.min tile_i (range_i - l / q * tile_i),
          Z.min tile_j (range_j - l mod q * tile_j)).
  split.
  { exact (compute_2d_tiled_chunk W unit _ record_2d_tiled tt
             range_i range_j tile_i tile_j l calls Hri Hrj Hti Htj Hl). }
  split; [done|]. split; [done|].
  unfold tile_in_range, chunk_in_range. simpl. lia.
Qed.

Lemma compute_2d_tiled_in_range_witness :
  exists tile,
    compute_2d_tiled SIZEOF_SIZE_T_8
      {| tiled_2d_function := record_2d_tiled; tiled_2d_argument := tt;
         tiled_2d_tile_range_j := {| value := divide_round_up SIZEOF_SIZE_T_8 5 4 |};
         tiled_2d_range_i := 3; tiled_2d_range_j := 5;
         tiled_2d_tile_i := 2; tiled_2d_tile_j := 4 |} 3 []
    = [] ++ [tile]
    /\ tile.1.1.1 = 3 / divide_round_up SIZEOF_SIZE_T_8 5 4 * 2
    /\ tile.1.1.2 = 3 mod divide_round_up SIZEOF_SIZE_T_8 5 4 * 4
    /\ tile_in_range 3 5 2 4 tile.
Proof.
  apply (compute_2d_tiled_in_range SIZEOF_SIZE_T_8 3 5 2 4 3 []);
    unfold is_size_t; concrete.
Defined.

(** ** A tile of 0 *)

Lemma tiled_1d_zero_tile_diverges_witness :
  calls_1d_tiled SIZEOF_SIZE_T_8 1000 None 5 0 = None.
Proof.
  apply (tiled_1d_zero_tile_diverges SIZEOF_SIZE_T_8 unit (list (Z * Z))
           record_1d_tiled tt 5 [] 1000). lia.
Defined.

Lemma tiled_2d_zero_tile_diverges_witness :
  calls_2d_tiled SIZEOF_SIZE_T_8 1000 None 5 3 2 0 = None.
Proof.
  apply (tiled_2d_zero_tile_diverges SIZEOF_SIZE_T_8 unit (list (Z * Z * Z * Z))
           record_2d_tiled tt 5 3 2 0 [] 1000); [lia | lia | right; reflexivity].
Defined.

(** ** Splitting a range *)

(** With an absent pool, running [pthreadpool_compute_1d] on a range of
    [n + m] items is running it on the first [n] and then, from the state
    reached, on the last [m] with the index shifted by [n]. *)
Theorem compute_1d_split_range W (A St : Type)
    (function : pthreadpool_function_1d_t A St) (argument : A)
    (n m : Z) (s : St) (fuel : nat) :
  0 <= n -> 0 <= m -> n + m <= SIZE_MAX W ->
  (Z.to_nat (n + m) < fuel)%nat ->
  pthreadpool_compute_1d W fuel None function argument (n + m) s
  = match pthreadpool_compute_1d W fuel None function argument n s with
    | Some s' =>
        pthreadpool_compute_1d W fuel None
          (fun a i s'' => function a (n + i) s'') argument m s'
    | None => None
    end.
Proof.
  intros Hn Hm Hfit Hfuel.
  rewrite !compute_1d_fallback by (unfold is_size_t; lia).
  rewrite seqZ_app, foldl_app by done. f_equal.
  rewrite (Z.add_comm 0 n), <- (fmap_add_seqZ n 0), foldl_fmap. done.
Qed.

Lemma compute_1d_split_range_witness :
  calls_1d SIZEOF_SIZE_T_8 6 None (2 + 3)
  = match calls_1d SIZEOF_SIZE_T_8 6 None 2 with
    | Some calls =>
        pthreadpool_compute_1d SIZEOF_SIZE_T_8 6 None
          (fun a i calls' => record_1d a (2 + i) calls') tt 3 calls
    | None => None
    end.
Proof.
  apply (compute_1d_split_range SIZEOF_SIZE_T_8 unit (list Z)
           record_1d tt 2 3 [] 6); concrete.
Defined.
